(** * MeteoraPositionStream: the transaction-to-position streaming pipeline

    A shallow embedding of [MeteoraPositionStream] (the orchestrator that
    turns the parsed transactions of a wallet into a stream of position
    records) together with the properties of its completion and
    cancellation protocol.

    The class is asynchronous, single threaded code: every method body runs
    atomically up to its next [await].  The embedding therefore has
    - a [State] record holding the private fields of the class, the
      continuations that are currently suspended at an [await], and the
      log of the calls of [super.push] and of [emit("error")] that the
      code of the class makes;
    - one pure function per method (or per atomic segment of a method);
    - an [Event] type naming everything that can resume the code (a signal
      of the transaction source, a call of [cancel], a promise settling),
      and [fire], which runs the segment an event resumes.
    An execution is a list of events run from the [constructor] state.

    The [LoadingSummary] component of the profit display, which renders
    the progress of such a stream, is embedded as a function from its
    props to the tree of elements it returns. *)

From Stdlib Require Import ZArith Lia.
From stdpp Require Import base list strings sorting.

Local Open Scope Z_scope.

(** ** Helpers on lists used as JavaScript arrays *)

(** [Array.prototype.indexOf]: index of the first occurrence. *)
Fixpoint indexOf (key : string) (l : list string) : option nat :=
  match l with
  | [] => None
  | x :: rest =>
      if bool_decide (x = key) then Some 0%nat
      else S <$> indexOf key rest
  end.

(** [arr.splice(arr.indexOf(key), 1)].  When the key is absent [indexOf]
    is [-1], and [splice(-1, 1)] removes the last element. *)
Definition splice_indexOf (key : string) (l : list string) : list string :=
  match indexOf key l with
  | Some i => delete i l
  | None => take (pred (length l)) l
  end.

(** Sums over lists, for counting events and suspended work. *)
Definition ind (b : bool) : Z := if b then 1 else 0.

Definition total {A : Type} (f : A -> Z) (l : list A) : Z :=
  foldr (fun x acc => f x + acc) 0 l.

(** ** The batch processor *)

Section BatchProcessor.
Context {In : Type}.

(** Modelled from the spec: [AsyncBatchProcessor] of [./util] is not among
    the sources.  Section 4.1 gives it a FIFO queue of batches and at most
    one transform in flight; [next] dequeues the oldest batch and starts
    the transform, or is an empty poll ([{0, []}]) when there is nothing
    it may start; [isComplete] holds iff the queue is empty and no
    transform is in flight. *)
Record AsyncBatchProcessor := mkProcessor {
  queue : list (list In);
  processing : bool
}.

(** Modelled from the spec: a new processor has an empty queue and nothing
    in flight. *)
Definition newProcessor : AsyncBatchProcessor :=
  {| queue := []; processing := false |}.

(** Modelled from the spec: [addBatch] enqueues the batch behind the others. *)
Definition addBatch (b : list In) (p : AsyncBatchProcessor) : AsyncBatchProcessor :=
  {| queue := queue p ++ [b]; processing := processing p |}.

(** Modelled from the spec: the synchronous part of [next].  It returns the
    batch whose transform was started, if any: the oldest one, unless the
    queue is empty or a transform is still in flight (an empty poll). *)
Definition next (p : AsyncBatchProcessor) : AsyncBatchProcessor * option (list In) :=
  if processing p then (p, None)
  else match queue p with
       | [] => (p, None)
       | b :: rest => ({| queue := rest; processing := true |}, Some b)
       end.

(** Modelled from the spec: the transform in flight settles; [busy] tells
    whether the processor goes on counting it as running. *)
Definition settle (busy : bool) (p : AsyncBatchProcessor) : AsyncBatchProcessor :=
  {| queue := queue p; processing := busy |}.

(** Modelled from the spec: [isComplete] holds iff no batch is queued and no
    transform is in flight. *)
Definition isComplete (p : AsyncBatchProcessor) : bool :=
  bool_decide (queue p = []) && negb (processing p).

(** The number of raw transactions waiting in the queue. *)
Definition queued (p : AsyncBatchProcessor) : Z :=
  foldr (fun b acc => Z.of_nat (length b) + acc) 0 (queue p).
End BatchProcessor.
Global Arguments AsyncBatchProcessor : clear implicits.

(** ** The orchestrator *)

(** The types and functions the class imports from modules that are not
    part of the core: the classified transaction with the two fields the
    class reads, the position aggregate with its constructor and
    [isClosed], and the fee reconciliation. *)
Class PositionModel (MeteoraPositionTransaction MeteoraPosition : Type) := {
  position : MeteoraPositionTransaction -> string;
  open : MeteoraPositionTransaction -> bool;
  newMeteoraPosition : list MeteoraPositionTransaction -> MeteoraPosition;
  isClosed : MeteoraPosition -> bool;
  invertAndFillMissingFees :
    list MeteoraPositionTransaction -> list MeteoraPositionTransaction
}.

Section Stream.
Context {ParsedTransactionWithMeta MeteoraPositionTransaction MeteoraPosition : Type}.
Context `{!PositionModel MeteoraPositionTransaction MeteoraPosition}.

(** *** Events in and out *)

(** Modelled from the spec: [ParsedTransactionStreamData] is declared in
    [./ParsedTransactionStream], which is not among the sources.  These are
    the three signals of section 6, with the fields [_parseTransactions]
    reads; they arrive on the ["data"] event of the source. *)
Inductive ParsedTransactionStreamData :=
| SignatureCount (signatureCount : Z)
| AllSignaturesFound
| ParsedTransaction (parsedTransactionsWithMeta : list ParsedTransactionWithMeta).

(** [MeteoraPositionStreamData], the chunks of the produced stream. *)
Inductive MeteoraPositionStreamData :=
| DSignatureCount (signatureCount : Z)
| DAllSignaturesFound
| TransactionCount (meteoraTransactionCount : Z)
| PositionAndTransactions (transactions : list MeteoraPositionTransaction)
                          (pos : MeteoraPosition)
| UpdatingOpenPositions (openPositionCount : Z).

(** What the code of the class hands on: a call of [super.push] ([None] is
    [null], the end-of-stream signal) or a call of [emit("error", _)].  The
    inherited [Transform] is not part of the embedding: what it makes of a
    call (buffering, the delivery to listeners, its own error for a chunk
    handed over after [null]) is not recorded. *)
Inductive Emitted :=
| SuperPush (chunk : option MeteoraPositionStreamData)
| EmitError.

(** *** Suspended continuations *)

Inductive Caller := FromData | FromEnd.

(** A call of [_createPosition] that went through [_updateOpenPosition]:
    waiting for [updateOpenPosition], then for the [await] in
    [_createPosition] to resume and splice the key out. *)
Inductive FinalizeStage := AwaitAugment | AwaitSplice | Settled | Rejected.

Record Finalize := mkFinalize {
  fkey : string;
  ftxs : list MeteoraPositionTransaction;
  fpos : MeteoraPosition;
  fstage : FinalizeStage
}.

(** A call of [_processBatch]: suspended at [await this._processor.next()]
    (with the batch whose transform is running, or none for an empty
    poll), suspended at [await Promise.all(...)], or finished. *)
Inductive BatchTask :=
| AwaitNext (c : Caller) (batch : option (list ParsedTransactionWithMeta))
| AwaitAll (c : Caller) (rejected : bool) (inputCount : Z) (children : list Finalize)
| Returned
| Threw.

(** The ["end"] handler of the source: its loop is waiting for
    [_processBatch], for [delay(0)], has left the loop, or was aborted by
    a rejection. *)
Inductive EndLoop := EndIdle | EndAwaitBatch | EndAwaitDelay | EndExited | EndThrew.

(** Modelled from the spec: the class [ParsedTransactionStream] is not among
    the sources.  Of the source only its [cancel] method is called; the
    record keeps how often. *)
Record ParsedTransactionStream := mkSource { cancelRequests : nat }.

(** *** The fields of the class *)

Record State := mkState {
  _transactionStream : option ParsedTransactionStream;
  _receivedAllTransactions : bool;
  _transactionsReceivedCount : Z;
  _transactionsProcessedCount : Z;
  _transactions : list MeteoraPositionTransaction;
  _processor : option (AsyncBatchProcessor ParsedTransactionWithMeta);
  _done : bool;
  _cancelling : bool;
  _cancelled : bool;
  _pendingPositions : list string;
  tasks : list BatchTask;
  endLoop : EndLoop;
  output : list Emitted
}.

Definition set_transactionStream v s :=
  mkState v (_receivedAllTransactions s) (_transactionsReceivedCount s)
    (_transactionsProcessedCount s) (_transactions s) (_processor s) (_done s)
    (_cancelling s) (_cancelled s) (_pendingPositions s) (tasks s) (endLoop s) (output s).
Definition set_receivedAllTransactions v s :=
  mkState (_transactionStream s) v (_transactionsReceivedCount s)
    (_transactionsProcessedCount s) (_transactions s) (_processor s) (_done s)
    (_cancelling s) (_cancelled s) (_pendingPositions s) (tasks s) (endLoop s) (output s).
Definition set_transactionsReceivedCount v s :=
  mkState (_transactionStream s) (_receivedAllTransactions s) v
    (_transactionsProcessedCount s) (_transactions s) (_processor s) (_done s)
    (_cancelling s) (_cancelled s) (_pendingPositions s) (tasks s) (endLoop s) (output s).
Definition set_transactionsProcessedCount v s :=
  mkState (_transactionStream s) (_receivedAllTransactions s) (_transactionsReceivedCount s)
    v (_transactions s) (_processor s) (_done s)
    (_cancelling s) (_cancelled s) (_pendingPositions s) (tasks s) (endLoop s) (output s).
Definition set_transactions v s :=
  mkState (_transactionStream s) (_receivedAllTransactions s) (_transactionsReceivedCount s)
    (_transactionsProcessedCount s) v (_processor s) (_done s)
    (_cancelling s) (_cancelled s) (_pendingPositions s) (tasks s) (endLoop s) (output s).
Definition set_processor v s :=
  mkState (_transactionStream s) (_receivedAllTransactions s) (_transactionsReceivedCount s)
    (_transactionsProcessedCount s) (_transactions s) v (_done s)
    (_cancelling s) (_cancelled s) (_pendingPositions s) (tasks s) (endLoop s) (output s).
Definition set_done v s :=
  mkState (_transactionStream s) (_receivedAllTransactions s) (_transactionsReceivedCount s)
    (_transactionsProcessedCount s) (_transactions s) (_processor s) v
    (_cancelling s) (_cancelled s) (_pendingPositions s) (tasks s) (endLoop s) (output s).
Definition set_cancelling v s :=
  mkState (_transactionStream s) (_receivedAllTransactions s) (_transactionsReceivedCount s)
    (_transactionsProcessedCount s) (_transactions s) (_processor s) (_done s)
    v (_cancelled s) (_pendingPositions s) (tasks s) (endLoop s) (output s).
Definition set_cancelled v s :=
  mkState (_transactionStream s) (_receivedAllTransactions s) (_transactionsReceivedCount s)
    (_transactionsProcessedCount s) (_transactions s) (_processor s) (_done s)
    (_cancelling s) v (_pendingPositions s) (tasks s) (endLoop s) (output s).
Definition set_pendingPositions v s :=
  mkState (_transactionStream s) (_receivedAllTransactions s) (_transactionsReceivedCount s)
    (_transactionsProcessedCount s) (_transactions s) (_processor s) (_done s)
    (_cancelling s) (_cancelled s) v (tasks s) (endLoop s) (output s).
Definition set_tasks v s :=
  mkState (_transactionStream s) (_receivedAllTransactions s) (_transactionsReceivedCount s)
    (_transactionsProcessedCount s) (_transactions s) (_processor s) (_done s)
    (_cancelling s) (_cancelled s) (_pendingPositions s) v (endLoop s) (output s).
Definition set_endLoop v s :=
  mkState (_transactionStream s) (_receivedAllTransactions s) (_transactionsReceivedCount s)
    (_transactionsProcessedCount s) (_transactions s) (_processor s) (_done s)
    (_cancelling s) (_cancelled s) (_pendingPositions s) (tasks s) v (output s).
Definition set_output v s :=
  mkState (_transactionStream s) (_receivedAllTransactions s) (_transactionsReceivedCount s)
    (_transactionsProcessedCount s) (_transactions s) (_processor s) (_done s)
    (_cancelling s) (_cancelled s) (_pendingPositions s) (tasks s) (endLoop s) v.

(** The state the constructor leaves behind: the field initialisers, and
    [_init] suspended at [await getDlmmPairs()], so that [_processor] and
    [_transactionStream] are still unassigned. *)
Definition constructor : State :=
  {| _transactionStream := None;
     _receivedAllTransactions := false;
     _transactionsReceivedCount := 0;
     _transactionsProcessedCount := 0;
     _transactions := [];
     _processor := None;
     _done := false;
     _cancelling := false;
     _cancelled := false;
     _pendingPositions := [];
     tasks := [];
     endLoop := EndIdle;
     output := [] |}.

(** *** The methods *)

Definition super_push (chunk : option MeteoraPositionStreamData) (s : State) : State :=
  set_output (output s ++ [SuperPush chunk]) s.

(** The overridden [push]. *)
Definition push (chunk : option MeteoraPositionStreamData) (s : State) : State :=
  if (0 <? length (_pendingPositions s))%nat then super_push chunk s
  else if _cancelling s && negb (_cancelled s) then
    super_push None (set_cancelled true s)
  else if _cancelled s then s
  else super_push chunk s.

Definition finish_condition (s : State) : bool :=
  _receivedAllTransactions s
  && (_transactionsReceivedCount s =? _transactionsProcessedCount s)
  && negb (_done s).

Definition _finish (s : State) : State :=
  if finish_condition s then push None (set_done true s) else s.

(** [cancel] dereferences [_transactionStream] before it records the
    request; on an unassigned field that is a [TypeError]. *)
Inductive Exception := TypeError.

Definition cancel (s : State) : Exception + State :=
  match _transactionStream s with
  | None => inl TypeError
  | Some src =>
      inr (set_cancelling true
             (set_transactionStream (Some (mkSource (S (cancelRequests src)))) s))
  end.

(** [_createPosition] up to its first suspension: for a closed position
    the whole body, for an open one up to [await updateOpenPosition]. *)
Definition _createPosition (tx : MeteoraPositionTransaction) (s : State)
  : State * option Finalize :=
  let key := position tx in
  let s1 := set_pendingPositions (_pendingPositions s ++ [key]) s in
  let newPositionTransactions :=
    invertAndFillMissingFees
      (filter (fun t => position t = key) (_transactions s1)) in
  let newPosition := newMeteoraPosition newPositionTransactions in
  if isClosed newPosition then
    let s2 := push (Some (PositionAndTransactions newPositionTransactions newPosition)) s1 in
    (set_pendingPositions (splice_indexOf key (_pendingPositions s2)) s2, None)
  else
    (s1, Some (mkFinalize key newPositionTransactions newPosition AwaitAugment)).

(** [output.map(async tx => { if (tx.open) await this._createPosition(tx) })]:
    the callbacks run in order, each up to its first suspension. *)
Fixpoint start_finalizers (out : list MeteoraPositionTransaction) (s : State)
  : State * list Finalize :=
  match out with
  | [] => (s, [])
  | tx :: rest =>
      if open tx then
        let '(s1, child) := _createPosition tx s in
        let '(s2, children) := start_finalizers rest s1 in
        (s2, match child with Some c => c :: children | None => children end)
      else start_finalizers rest s
  end.

Definition notify_end (c : Caller) (l : EndLoop) (s : State) : State :=
  match c with FromEnd => set_endLoop l s | FromData => s end.

(** A call of [_processBatch], up to [await this._processor.next()]. *)
Definition _processBatch (c : Caller) (s : State) : option State :=
  if negb (_cancelling s) && negb (_cancelled s) then
    match _processor s with
    | None => None
    | Some p =>
        let '(p', started) := next p in
        Some (notify_end c EndAwaitBatch
                (set_tasks (tasks s ++ [AwaitNext c started])
                   (set_processor (Some p') s)))
    end
  else Some (notify_end c EndAwaitDelay s).

(** Every handler either ends with a call of [_finish] or does not; the
    handlers below return the state before that call and whether it is
    made. *)
Definition Segment : Type := option (State * bool).

(** [_processBatch] from [next()] resolving to [await Promise.all(...)],
    or to its end when nothing was classified. *)
Definition _processBatch_next (i : nat) (out : list MeteoraPositionTransaction)
    (s : State) : Segment :=
  match tasks s !! i with
  | Some (AwaitNext c started) =>
      let inputCount := match started with
                        | Some b => Z.of_nat (length b) | None => 0 end in
      let output_ := match started with Some _ => out | None => [] end in
      let s0 := match started with
                | Some _ => set_processor (settle false <$> _processor s) s
                | None => s end in
      if 0 <? inputCount then
        if (0 <? length output_)%nat then
          let s1 := set_transactions (_transactions s0 ++ output_) s0 in
          let s2 := push (Some (TransactionCount (Z.of_nat (length (_transactions s1))))) s1 in
          let '(s3, children) := start_finalizers output_ s2 in
          Some (set_tasks (<[i := AwaitAll c false inputCount children]> (tasks s3)) s3,
                false)
        else
          let s1 := set_transactionsProcessedCount
                      (_transactionsProcessedCount s0 + inputCount) s0 in
          Some (notify_end c EndAwaitDelay
                  (set_tasks (<[i := Returned]> (tasks s1)) s1), true)
      else
        Some (notify_end c EndAwaitDelay
                (set_tasks (<[i := Returned]> (tasks s0)) s0), true)
  | _ => None
  end.

(** [next()] rejecting: [_processBatch] rejects with it.  No caller
    handles that promise ([_parseTransactions] drops it, the ["end"]
    handler is itself an unawaited async function).  Whether the
    processor still counts the failed transform as running is left open
    by its contract. *)
Definition _processBatch_throw (i : nat) (busy : bool) (s : State) : Segment :=
  match tasks s !! i with
  | Some (AwaitNext c (Some _)) =>
      Some (notify_end c EndThrew
              (set_tasks (<[i := Threw]> (tasks s))
                 (set_processor (settle busy <$> _processor s) s)), false)
  | _ => None
  end.

Definition all_settled (children : list Finalize) : bool :=
  forallb (fun c => match fstage c with Settled => true | _ => false end) children.

(** [_processBatch] after [await Promise.all(...)]. *)
Definition _processBatch_all (i : nat) (s : State) : Segment :=
  match tasks s !! i with
  | Some (AwaitAll c false inputCount children) =>
      if all_settled children then
        let s1 := set_transactionsProcessedCount
                    (_transactionsProcessedCount s + inputCount) s in
        Some (notify_end c EndAwaitDelay
                (set_tasks (<[i := Returned]> (tasks s1)) s1), true)
      else None
  | _ => None
  end.

Definition with_child (i j : nat) (s : State)
    (k : Caller -> bool -> Finalize -> option (State * Finalize * bool)) : Segment :=
  match tasks s !! i with
  | Some (AwaitAll c rejected inputCount children) =>
      match children !! j with
      | Some child =>
          match k c rejected child with
          | Some (s1, child', rejected') =>
              Some (set_tasks
                      (<[i := AwaitAll c rejected' inputCount (<[j := child']> children)]>
                         (tasks s1)) s1, false)
          | None => None
          end
      | None => None
      end
  | _ => None
  end.

(** [_updateOpenPosition] after [await updateOpenPosition(...)], which
    left the position in state [p]. *)
Definition _updateOpenPosition (i j : nat) (p : MeteoraPosition) (s : State) : Segment :=
  with_child i j s (fun c rejected child =>
    match fstage child with
    | AwaitAugment =>
        Some (push (Some (PositionAndTransactions (ftxs child) p)) s,
              mkFinalize (fkey child) (ftxs child) p AwaitSplice, rejected)
    | _ => None
    end).

(** [updateOpenPosition] rejecting: the finalize step, [Promise.all] and
    [_processBatch] reject with it; the key stays in the pending list. *)
Definition _updateOpenPosition_throw (i j : nat) (s : State) : Segment :=
  with_child i j s (fun c rejected child =>
    match fstage child with
    | AwaitAugment =>
        Some ((if rejected then s else notify_end c EndThrew s),
              mkFinalize (fkey child) (ftxs child) (fpos child) Rejected, true)
    | _ => None
    end).

(** [_createPosition] after [await this._updateOpenPosition(...)]. *)
Definition _createPosition_resume (i j : nat) (s : State) : Segment :=
  with_child i j s (fun c rejected child =>
    match fstage child with
    | AwaitSplice =>
        Some (set_pendingPositions (splice_indexOf (fkey child) (_pendingPositions s)) s,
              mkFinalize (fkey child) (ftxs child) (fpos child) Settled, rejected)
    | _ => None
    end).

Definition forwarded (d : ParsedTransactionStreamData) : option MeteoraPositionStreamData :=
  match d with
  | SignatureCount n => Some (DSignatureCount n)
  | AllSignaturesFound => Some DAllSignaturesFound
  | ParsedTransaction _ => None
  end.

Definition _parseTransactions (d : ParsedTransactionStreamData) (s : State) : Segment :=
  match d with
  | SignatureCount n =>
      Some (push (forwarded d) (set_transactionsReceivedCount n s), true)
  | AllSignaturesFound =>
      Some (push (forwarded d) (set_receivedAllTransactions true s), true)
  | ParsedTransaction b =>
      s' ← _processBatch FromData (set_processor (addBatch b <$> _processor s) s);
      Some (s', false)
  end.

(** The loop test of the ["end"] handler, followed by the call of
    [_processBatch] when the loop is entered. *)
Definition end_loop (s : State) : Segment :=
  match _processor s with
  | None => None
  | Some p =>
      if isComplete p then Some (set_endLoop EndExited s, false)
      else s' ← _processBatch FromEnd s; Some (s', false)
  end.

(** [_init] after [await getDlmmPairs()]: the processor and the source are
    created and the three listeners registered. *)
Definition _init (s : State) : State :=
  set_transactionStream (Some (mkSource 0)) (set_processor (Some newProcessor) s).

(** The ["end"] listener of the source, up to its first suspension. *)
Definition on_end (s : State) : Segment :=
  end_loop (set_receivedAllTransactions true s).

(** The ["error"] listener of the source: [this.emit("error", error)]. *)
Definition on_error (s : State) : State :=
  set_output (output s ++ [EmitError]) s.

(** *** What resumes the code *)

Inductive Event :=
| InitResolved
| SrcData (d : ParsedTransactionStreamData)
| SrcEnd
| SrcError
| Cancel
| NextResolved (i : nat) (out : list MeteoraPositionTransaction)
| NextRejected (i : nat) (busy : bool)
| AugmentResolved (i j : nat) (p : MeteoraPosition)
| AugmentRejected (i j : nat)
| CreatePositionResumed (i j : nat)
| AllResolved (i : nat)
| DelayFired.

Definition listening (s : State) : bool :=
  match _transactionStream s with Some _ => true | None => false end.

Definition handle (e : Event) (s : State) : Segment :=
  match e with
  | InitResolved =>
      if listening s then None else Some (_init s, false)
  | SrcData d => if listening s then _parseTransactions d s else None
  | SrcEnd =>
      if listening s then
        match endLoop s with
        | EndIdle => on_end s
        | _ => None
        end
      else None
  | SrcError =>
      if listening s then Some (on_error s, false) else None
  | Cancel =>
      match cancel s with
      | inl _ => Some (s, false)
      | inr s' => Some (s', false)
      end
  | NextResolved i out => _processBatch_next i out s
  | NextRejected i busy => _processBatch_throw i busy s
  | AugmentResolved i j p => _updateOpenPosition i j p s
  | AugmentRejected i j => _updateOpenPosition_throw i j s
  | CreatePositionResumed i j => _createPosition_resume i j s
  | AllResolved i => _processBatch_all i s
  | DelayFired =>
      match endLoop s with
      | EndAwaitDelay => end_loop s
      | _ => None
      end
  end.

Definition fire (e : Event) (s : State) : option State :=
  match handle e s with
  | Some (s1, true) => Some (_finish s1)
  | Some (s1, false) => Some s1
  | None => None
  end.

Fixpoint run (es : list Event) (s : State) : option State :=
  match es with
  | [] => Some s
  | e :: rest =>
      match fire e s with
      | Some s' => run rest s'
      | None => None
      end
  end.

(** *** Observations used to state the properties *)

Definition is_end (e : Emitted) : bool :=
  match e with SuperPush None => true | _ => false end.

Definition is_position_event (e : Emitted) : bool :=
  match e with SuperPush (Some (PositionAndTransactions _ _)) => true | _ => false end.

Definition is_updating (e : Emitted) : bool :=
  match e with SuperPush (Some (UpdatingOpenPositions _)) => true | _ => false end.

Definition is_error (e : Emitted) : bool :=
  match e with EmitError => true | _ => false end.

Definition ends (s : State) : Z := total (fun e => ind (is_end e)) (output s).
Definition position_events (s : State) : Z :=
  total (fun e => ind (is_position_event e)) (output s).

Definition children_of (t : BatchTask) : list Finalize :=
  match t with AwaitAll _ _ _ children => children | _ => [] end.

(** A finalize step whose key is still in the pending list. *)
Definition unsettled (c : Finalize) : bool :=
  match fstage c with Settled => false | _ => true end.

(** A finalize step that was started and has not pushed its record. *)
Definition unemitted (c : Finalize) : bool :=
  match fstage c with AwaitAugment | Rejected => true | _ => false end.

Definition in_flight (s : State) : Z :=
  total (fun t => total (fun c => ind (unsettled c)) (children_of t)) (tasks s).

Definition not_emitted (s : State) : Z :=
  total (fun t => total (fun c => ind (unemitted c)) (children_of t)) (tasks s).

(** Raw transactions taken from the queue and not yet counted as processed. *)
Definition weight (t : BatchTask) : Z :=
  match t with
  | AwaitNext _ (Some b) => Z.of_nat (length b)
  | AwaitAll _ _ inputCount _ => inputCount
  | _ => 0
  end.

Definition backlog (s : State) : Z :=
  total weight (tasks s)
  + match _processor s with Some p => queued p | None => 0 end.

Definition task_ok (t : BatchTask) : Prop :=
  match t with AwaitAll _ _ inputCount _ => 0 < inputCount | _ => True end.

Definition opens (txs : list MeteoraPositionTransaction) : Z :=
  total (fun t => ind (open t)) txs.

Definition opens_of (key : string) (txs : list MeteoraPositionTransaction) : Z :=
  total (fun t => ind (open t && bool_decide (position t = key))) txs.

Definition position_keys (txs : list MeteoraPositionTransaction) : list string :=
  remove_dups (position <$> txs).

(** The aggregate [_createPosition] builds for a key from the log. *)
Definition aggregate_transactions (key : string) (s : State)
  : list MeteoraPositionTransaction :=
  invertAndFillMissingFees (filter (fun t => position t = key) (_transactions s)).

(** What the source has told the class so far: the raw transactions it
    delivered and the signature count it last reported. *)
Definition delivered_by (e : Event) : Z :=
  match e with
  | SrcData (ParsedTransaction b) => Z.of_nat (length b)
  | _ => 0
  end.

Definition reported_by (e : Event) (reported : Z) : Z :=
  match e with
  | SrcData (SignatureCount n) => n
  | _ => reported
  end.

(** The source never delivers more raw transactions than the signature
    count it last reported. *)
Fixpoint counts_cover_from (reported delivered : Z) (es : list Event) : bool :=
  match es with
  | [] => true
  | e :: rest =>
      let reported' := reported_by e reported in
      let delivered' := delivered + delivered_by e in
      (delivered' <=? reported') && counts_cover_from reported' delivered' rest
  end.

Definition counts_cover (es : list Event) : bool := counts_cover_from 0 0 es.

Fixpoint delivered_total (es : list Event) : Z :=
  match es with
  | [] => 0
  | e :: rest => delivered_by e + delivered_total rest
  end.

(** The calls of [emit("error", _)] made by the code of the class.  An
    error that the inherited [push] raises by itself, for a chunk handed
    over after [null], is not among them. *)
Definition errors (s : State) : Z := total (fun e => ind (is_error e)) (output s).

Fixpoint reported_total (reported : Z) (es : list Event) : Z :=
  match es with
  | [] => reported
  | e :: rest => reported_total (reported_by e reported) rest
  end.

(** A segment that touches neither the progress counters of the source nor
    the flags, and that emits no terminal signal unless a cancellation is
    under way. *)
Definition quiet (s s' : State) : Prop :=
  _transactionsReceivedCount s' = _transactionsReceivedCount s
  /\ _receivedAllTransactions s' = _receivedAllTransactions s
  /\ _cancelling s' = _cancelling s
  /\ _done s' = _done s
  /\ (_cancelled s = true -> _cancelled s' = true)
  /\ (_cancelling s = false -> _cancelled s = false ->
      _cancelled s' = false /\ ends s' = ends s).

(** The assignment a handler makes to the progress fields and flags before
    anything else. *)
Definition noted (e : Event) (s : State) : State :=
  match e with
  | SrcData (SignatureCount n) => set_transactionsReceivedCount n s
  | SrcData AllSignaturesFound | SrcEnd => set_receivedAllTransactions true s
  | Cancel => if listening s then set_cancelling true s else s
  | _ => s
  end.

(** The segments after which the completion check is due: a forwarded
    progress signal, and the end of a batch drain (for [next()] resolving
    that is the case unless the drain goes on to wait for its finalize
    steps). *)
Definition checks_completion (e : Event) (after : State) : bool :=
  match e with
  | SrcData (SignatureCount _) | SrcData AllSignaturesFound => true
  | AllResolved _ => true
  | NextResolved i _ =>
      match tasks after !! i with
      | Some (AwaitAll _ _ _ _) => false
      | _ => true
      end
  | _ => false
  end.

(** The invariant of the executions. *)
Record Inv (s : State) (delivered : Z) : Prop := mkInv {
  inv_pending : Z.of_nat (length (_pendingPositions s)) = in_flight s;
  inv_tasks : Forall task_ok (tasks s);
  inv_backlog : _transactionsProcessedCount s + backlog s <= delivered;
  inv_account : position_events s + not_emitted s = opens (_transactions s);
  inv_updating : total (fun e => ind (is_updating e)) (output s) = 0
}.

(** *** Further observations on executions *)

(** The running totals pushed as [transactionCount] chunks. *)
Definition count_of (m : Emitted) : option Z :=
  match m with SuperPush (Some (TransactionCount n)) => Some n | _ => None end.

Definition tx_counts (out : list Emitted) : list Z := omap count_of out.

(** The progress signals among the pushed chunks, and those the source
    delivered. *)
Definition signal_of (m : Emitted) : option MeteoraPositionStreamData :=
  match m with
  | SuperPush (Some (DSignatureCount n)) => Some (DSignatureCount n)
  | SuperPush (Some DAllSignaturesFound) => Some DAllSignaturesFound
  | _ => None
  end.

Definition signals (out : list Emitted) : list MeteoraPositionStreamData :=
  omap signal_of out.

Definition report_of (e : Event) : option MeteoraPositionStreamData :=
  match e with SrcData d => forwarded d | _ => None end.

Definition reported_signals (es : list Event) : list MeteoraPositionStreamData :=
  omap report_of es.

Definition is_source_error (e : Event) : bool :=
  match e with SrcError => true | _ => false end.

Definition source_errors (es : list Event) : Z :=
  total (fun e => ind (is_source_error e)) es.

Definition queue_of (s : State) : list (list ParsedTransactionWithMeta) :=
  match _processor s with Some p => queue p | None => [] end.

Definition log_length (s : State) : Z := Z.of_nat (length (_transactions s)).

(** The finalize step [j] of batch [i] has failed in the augmenter. *)
Definition rejected_at (i j : nat) (s : State) : Prop :=
  exists c r n children child,
    tasks s !! i = Some (AwaitAll c r n children)
    /\ children !! j = Some child
    /\ fstage child = Rejected.

(** The keys of the finalize steps that have not spliced their key out. *)
Definition keys_in_flight (t : BatchTask) : list string :=
  fkey <$> filter (fun c => unsettled c = true) (children_of t).

Definition pending_keys (s : State) : list string :=
  concat (keys_in_flight <$> tasks s).

(** What [start_finalizers] makes of one open-flagged transaction of a
    batch: the record of a closed position, or the finalize step of an open
    one. *)
Definition closes (s : State) (tx : MeteoraPositionTransaction) : bool :=
  isClosed (newMeteoraPosition (aggregate_transactions (position tx) s)).

Definition record_of (s : State) (tx : MeteoraPositionTransaction) : Emitted :=
  SuperPush (Some (PositionAndTransactions
                     (aggregate_transactions (position tx) s)
                     (newMeteoraPosition (aggregate_transactions (position tx) s)))).

Definition step_of (s : State) (tx : MeteoraPositionTransaction) : Finalize :=
  mkFinalize (position tx) (aggregate_transactions (position tx) s)
    (newMeteoraPosition (aggregate_transactions (position tx) s)) AwaitAugment.

(** How a state relates to a later one: [sig] are the progress signals and
    [nerr] the number of source errors that came in between. *)
Record evolves (sig : list MeteoraPositionStreamData) (nerr : Z) (s s' : State)
  : Prop := mkEvolves {
  ev_log : _transactions s `prefix_of` _transactions s';
  ev_output : output s `prefix_of` output s';
  ev_done : _done s = true -> _done s' = true;
  ev_cancelling : _cancelling s = true -> _cancelling s' = true;
  ev_cancelled : _cancelled s = true -> _cancelled s' = true;
  ev_finalized : _cancelled s' = true -> _cancelled s = true \/ _cancelling s' = true;
  ev_listening : listening s = true -> listening s' = true;
  ev_ends_lower : ends s - ind (_cancelled s) <= ends s' - ind (_cancelled s');
  ev_ends_upper :
    ends s' - ind (_cancelled s') - ind (_done s')
    <= ends s - ind (_cancelled s) - ind (_done s);
  ev_ends_exact :
    _cancelling s' = false -> _cancelled s = false ->
    _cancelled s' = false /\ ends s' - ind (_done s') = ends s - ind (_done s);
  ev_errors : errors s' = errors s + nerr;
  ev_counts :
    exists l,
      tx_counts (output s') = tx_counts (output s) ++ l
      /\ StronglySorted Z.lt l
      /\ Forall (fun n => log_length s < n <= log_length s') l
      /\ (_cancelling s' = false -> _cancelled s = false ->
          (l = [] /\ log_length s' = log_length s) \/ last l = Some (log_length s'));
  ev_signals :
    exists l,
      signals (output s') = signals (output s) ++ l
      /\ l `sublist_of` sig
      /\ (_cancelling s' = false -> _cancelled s = false -> l = sig);
  ev_idle :
    _cancelling s = true -> listening s = true ->
    length (tasks s') = length (tasks s)
    /\ queue_of s `prefix_of` queue_of s'
    /\ (queue_of s <> [] -> endLoop s <> EndExited -> endLoop s' <> EndExited);
  ev_rejected : forall i j, rejected_at i j s -> rejected_at i j s'
}.




(** The transaction lists held by the finalize steps of the tasks. *)
Definition children_txs (s : State) : list (list MeteoraPositionTransaction) :=
  concat ((fun t => ftxs <$> children_of t) <$> tasks s).

(** [txs] is what [_createPosition] builds for an open-flagged transaction
    [tx] from a state of the log [log'] that the log of [s] extends, and
    unless a cancellation was requested the length of [log'] is among the
    [transactionCount] values of the chunks [before]. *)
Definition aggregated (s : State) (before : list Emitted)
    (txs : list MeteoraPositionTransaction) : Prop :=
  exists tx log',
    log' `prefix_of` _transactions s
    /\ tx ∈ log' /\ open tx = true
    /\ txs = invertAndFillMissingFees (filter (fun t => position t = position tx) log')
    /\ (_cancelling s = false -> Z.of_nat (length log') ∈ tx_counts before).

Definition records_aggregated (s : State) : Prop :=
  (_cancelled s = true -> _cancelling s = true)
  /\ (forall o1 txs pos o2,
        output s = o1 ++ SuperPush (Some (PositionAndTransactions txs pos)) :: o2 ->
        aggregated s o1 txs)
  /\ Forall (aggregated s (output s)) (children_txs s).

(** What a stretch of execution from [s] to [s1] does to the records: the
    ones it pushes and the finalize steps it leaves were either held by a
    finalize step of [s] or are aggregated from the log of [s1]. *)
Definition records_step (s s1 : State) : Prop :=
  _transactions s `prefix_of` _transactions s1
  /\ (_cancelling s = true -> _cancelling s1 = true)
  /\ exists new,
       output s1 = output s ++ new
       /\ (forall n1 txs pos n2,
             new = n1 ++ SuperPush (Some (PositionAndTransactions txs pos)) :: n2 ->
             txs ∈ children_txs s \/ aggregated s1 (output s ++ n1) txs)
       /\ (forall txs,
             txs ∈ children_txs s1 ->
             txs ∈ children_txs s \/ aggregated s1 (output s1) txs).

End Stream.

(** ** The loading summary of the profit display

    [LoadingSummary] is a function component: it maps its props to a tree
    of elements.  [PositionLoadingState] is declared in [@/pages], which is
    not among the sources; the record below has the fields the component
    reads, with the types their uses require ([eta] may be missing, the
    entries of [profits] are only asked for their [errors]). *)

Module Display.
Section Component.
Context {Profit Error : Type} (errors : Profit -> list Error).

Record PositionLoadingState := mkLoadingState {
  durationString : string;
  eta : option string;
  signatureCount : Z;
  allSignaturesFound : bool;
  allPositionsFound : bool;
  positionAddresses : list string;
  profits : list Profit;
  done : bool;
  positionProgress : Z
}.

(** What is passed as [value] to a [LoadingItem]. *)
Inductive Value :=
| Str (s : string)
| Num (n : Z)
| Undefined.

#[warnings="-register-all"]
Inductive Element :=
| div (className : string) (children : list Element)
| Card (className : string) (children : list Element)
| CardBody (children : list Element)
| LoadingItem (loading : option bool) (title : string) (value : Value)
| Progress (className : string) (isIndeterminate showValueLabel : bool) (value : Z)
| Text (s : string)
| Fragment (children : list Element)
| MissingTransactionsDownloadButton
    (positionAddresses : list string) (profits : list Profit)
| ValidPositionsDownloadButton (profits : list Profit)
| AllPositionsDownloadButton (profits : list Profit).

(** JavaScript's reading of a possibly missing string as a condition, and
    its loose comparison [x != ""]. *)
Definition truthy (x : option string) : bool :=
  match x with Some s => negb (String.eqb s "") | None => false end.

Definition differs_from_empty (x : option string) : bool :=
  match x with Some s => negb (String.eqb s "") | None => true end.

Definition value_of (x : option string) : Value :=
  match x with Some s => Str s | None => Undefined end.

Definition LoadingSummary (loading : bool) (positionLoadingState : PositionLoadingState)
  : Element :=
  div "flex w-full"
    [ Card "m-4 h-fit w-1/2"
        [ CardBody
            [ LoadingItem None "Time Elapsed"
                (Str (durationString positionLoadingState));
              (if loading && truthy (eta positionLoadingState)
                  && differs_from_empty (eta positionLoadingState)
               then LoadingItem None "Estimated time to complete"
                      (value_of (eta positionLoadingState))
               else Text "");
              LoadingItem (Some (negb (allSignaturesFound positionLoadingState)))
                "# of Transactions Found"
                (Num (signatureCount positionLoadingState));
              LoadingItem (Some (negb (allPositionsFound positionLoadingState)))
                "# of Positions Found"
                (Num (Z.of_nat (length (positionAddresses positionLoadingState))));
              LoadingItem (Some loading) "# of Positions w/ Errors"
                (Num (Z.of_nat (length
                   (filter (fun profit => (0 < length (errors profit))%nat)
                      (profits positionLoadingState)))));
              LoadingItem (Some loading) "# of Positions Analyzed"
                (Num (Z.of_nat (length (profits positionLoadingState))));
              (if negb (done positionLoadingState)
               then Progress "mt-4"
                      (negb (allPositionsFound positionLoadingState))
                      (allPositionsFound positionLoadingState)
                      (positionProgress positionLoadingState)
               else Fragment []) ] ];
      div "flex w-full justify-end items-end"
        [ MissingTransactionsDownloadButton
            (positionAddresses positionLoadingState) (profits positionLoadingState);
          ValidPositionsDownloadButton (profits positionLoadingState);
          AllPositionsDownloadButton (profits positionLoadingState) ] ].

(** The children of the card body of a summary. *)
Definition card_items (x : Element) : list Element :=
  match x with
  | div _ (Card _ (CardBody items :: _) :: _) => items
  | _ => []
  end.

End Component.
End Display.

(** ** A concrete instance, used to run executions *)

Module Demo.

(** A classified transaction: its position key, whether it opens the
    position, whether it closes it. *)
Record tx := mkTx { tx_position : string; tx_open : bool; tx_close : bool }.

(** A position is the list of its transactions, with how often it was
    augmented; it is closed when one of them closes it. *)
Record pos := mkPos { pos_txs : list tx; pos_live : nat }.

Definition live (p : pos) : pos := mkPos (pos_txs p) (S (pos_live p)).

#[global] Instance demo_model : PositionModel tx pos := {|
  position := tx_position;
  open := tx_open;
  newMeteoraPosition := fun l => mkPos l 0;
  isClosed := fun p => existsb tx_close (pos_txs p);
  invertAndFillMissingFees := fun l => l
|}.

Definition openP1 := mkTx "P1" true false.
Definition closeP1 := mkTx "P1" false true.
Definition depositP3 := mkTx "P3" false false.

Definition ten : list nat := [1; 2; 3; 4; 5; 6; 7; 8; 9; 10]%nat.

(** Ten signatures, all found, one batch classified into an open and a
    close of P1. *)
Definition closed_position_run : list (@Event nat tx pos) :=
  [InitResolved; SrcData (SignatureCount 10); SrcData AllSignaturesFound;
   SrcData (ParsedTransaction ten); NextResolved 0 [openP1; closeP1];
   AllResolved 0; SrcEnd].

(** The same with the close withheld: P1 is open and gets augmented. *)
Definition open_position_run : list (@Event nat tx pos) :=
  [InitResolved; SrcData (SignatureCount 10); SrcData AllSignaturesFound;
   SrcData (ParsedTransaction ten); NextResolved 0 [openP1];
   AugmentResolved 0 0 (live (mkPos [openP1] 0)); CreatePositionResumed 0 0;
   AllResolved 0; SrcEnd].

Definition open_position_classified : list (@Event nat tx pos) :=
  [InitResolved; SrcData (SignatureCount 10); SrcData AllSignaturesFound;
   SrcData (ParsedTransaction ten); NextResolved 0 [openP1]].

(** [cancel] is called while the classifier works on a batch. *)
Definition cancel_while_classifying : list (@Event nat tx pos) :=
  [InitResolved; SrcData (SignatureCount 1); SrcData (ParsedTransaction [1%nat]);
   Cancel].

(** The classifier rejects the second batch; the source then reports that
    all signatures were found and ends. *)
Definition first_batch_classified : list (@Event nat tx pos) :=
  [InitResolved; SrcData (SignatureCount 2); SrcData (ParsedTransaction [1%nat]);
   NextResolved 0 [openP1; closeP1]; AllResolved 0;
   SrcData (ParsedTransaction [2%nat])].

Definition after_rejection : list (@Event nat tx pos) :=
  [SrcData AllSignaturesFound; SrcEnd].

(** A source that delivers a transaction it has not counted. *)
Definition uncounted_batch : list (@Event nat tx pos) :=
  [InitResolved; SrcData (ParsedTransaction [1%nat]); NextResolved 0 []].

Definition uncounted_open_position : list (@Event nat tx pos) :=
  [InitResolved; SrcData (ParsedTransaction [1%nat]); NextResolved 0 [openP1]].

(** The log holds a deposit into a position whose opening lies outside the
    requested range. *)
Definition deposit_only_run : list (@Event nat tx pos) :=
  [InitResolved; SrcData (SignatureCount 1); SrcData AllSignaturesFound;
   SrcData (ParsedTransaction [1%nat]); NextResolved 0 [depositP3]; AllResolved 0].

(** [cancel] called twice before [getDlmmPairs()] has resolved. *)
Definition early_cancels : list (@Event nat tx pos) := [Cancel; Cancel].

(** A wallet without signatures. *)
Definition nothing_to_fetch : list (@Event nat tx pos) :=
  [InitResolved; SrcData (SignatureCount 0)].

(** A state with a requested, not yet finalized cancellation. *)
Definition cancelling_state : @State nat tx pos :=
  set_cancelling true constructor.

(** The source reports an error; later the classifier rejects a batch. *)
Definition failing_run : list (@Event nat tx pos) :=
  [InitResolved; SrcError; SrcData (SignatureCount 1);
   SrcData (ParsedTransaction [1%nat]); NextRejected 0 false].


(** The augmenter rejects for P1; afterwards [cancel] is called, the source
    reports another signature and ends. *)
Definition augmentation_rejects : list (@Event nat tx pos) :=
  open_position_classified ++ [AugmentRejected 0 0].

Definition after_augmentation_rejected : list (@Event nat tx pos) :=
  [Cancel; SrcData (SignatureCount 11); SrcEnd].

(** What the summary is rendered from: two positions analyzed, one of them
    with an error. *)
Definition summary_state : @Display.PositionLoadingState (list string) :=
  Display.mkLoadingState "1m 12s" (Some "2m") 10 true false ["P1"; "P2"]
    [["missing fee"]; []] false 50.

(** The batch of the closed position, classified and not yet drained. *)
Definition closed_position_classified : list (@Event nat tx pos) :=
  [InitResolved; SrcData (SignatureCount 10); SrcData AllSignaturesFound;
   SrcData (ParsedTransaction ten); NextResolved 0 [openP1; closeP1]].

(** The open position, augmented and taken off the pending list. *)
Definition open_position_settled_run : list (@Event nat tx pos) :=
  open_position_classified
  ++ [AugmentResolved 0 0 (live (mkPos [openP1] 0)); CreatePositionResumed 0 0].



(** The states these executions end in. *)
Definition state_after (es : list (@Event nat tx pos)) (s : @State nat tx pos)
  : @State nat tx pos :=
  default s (run es s).

Definition before_check (e : @Event nat tx pos) (s : @State nat tx pos)
  : @State nat tx pos :=
  default s (fst <$> handle e s).

Definition closed_position_end :=
  Eval vm_compute in state_after closed_position_run constructor.
Definition open_position_end :=
  Eval vm_compute in state_after open_position_run constructor.
Definition open_position_augmenting :=
  Eval vm_compute in state_after open_position_classified constructor.
Definition open_position_augmented :=
  Eval vm_compute in
    state_after [AugmentResolved 0 0 (live (mkPos [openP1] 0))] open_position_augmenting.
Definition nothing_to_fetch_end :=
  Eval vm_compute in state_after nothing_to_fetch constructor.
Definition nothing_to_fetch_checked :=
  Eval vm_compute in before_check (SrcData AllSignaturesFound) nothing_to_fetch_end.
Definition uncounted_batch_end :=
  Eval vm_compute in state_after uncounted_batch constructor.
Definition uncounted_open_position_end :=
  Eval vm_compute in state_after uncounted_open_position constructor.
Definition uncounted_open_position_checked :=
  Eval vm_compute in before_check (SrcData AllSignaturesFound) uncounted_open_position_end.
Definition deposit_only_end :=
  Eval vm_compute in state_after deposit_only_run constructor.
Definition cancelled_classifying :=
  Eval vm_compute in state_after cancel_while_classifying constructor.
Definition cancelled_finalizing :=
  Eval vm_compute in state_after [NextResolved 0 [openP1]] cancelled_classifying.
Definition cancelled_finalized :=
  Eval vm_compute in
    state_after [AugmentResolved 0 0 (live (mkPos [openP1] 0))] cancelled_finalizing.
Definition second_batch_classifying :=
  Eval vm_compute in state_after first_batch_classified constructor.
Definition second_batch_rejected :=
  Eval vm_compute in state_after [NextRejected 1 false] second_batch_classifying.
Definition source_ended_after_rejection :=
  Eval vm_compute in state_after after_rejection second_batch_rejected.
Definition failing_end :=
  Eval vm_compute in state_after failing_run constructor.
Definition augmenting_cancelled :=
  Eval vm_compute in state_after [Cancel] open_position_augmenting.
Definition augmenting_cancelled_augmented :=
  Eval vm_compute in
    state_after [AugmentResolved 0 0 (live (mkPos [openP1] 0))] augmenting_cancelled.
Definition augmentation_rejected :=
  Eval vm_compute in state_after augmentation_rejects constructor.
Definition rejected_then_cancelled :=
  Eval vm_compute in state_after after_augmentation_rejected augmentation_rejected.
Definition closed_position_draining :=
  Eval vm_compute in state_after closed_position_classified constructor.
Definition closed_position_checked :=
  Eval vm_compute in before_check (AllResolved 0) closed_position_draining.
Definition open_position_settled :=
  Eval vm_compute in state_after open_position_settled_run constructor.
Definition open_position_checked :=
  Eval vm_compute in before_check (AllResolved 0) open_position_settled.

End Demo.

(** ** Sums *)

Lemma total_app {A : Type} (f : A -> Z) (l1 l2 : list A) :
  total f (l1 ++ l2) = total f l1 + total f l2.
Proof. induction l1 as [|x l1 IH]; simpl; [done | rewrite IH; lia]. Qed.

Lemma total_insert {A : Type} (f : A -> Z) (l : list A) (i : nat) (x y : A) :
  l !! i = Some x -> total f (<[i:=y]> l) = total f l - f x + f y.
Proof.
  revert i. induction l as [|a l IH]; intros [|i] Hi; simplify_eq/=; [lia|].
  rewrite (IH i Hi). lia.
Qed.

Lemma total_nonneg {A : Type} (f : A -> Z) (l : list A) :
  (forall x, 0 <= f x) -> 0 <= total f l.
Proof. intros Hf. induction l as [|a l IH]; simpl; [lia | specialize (Hf a); lia]. Qed.

Lemma total_lookup_le {A : Type} (f : A -> Z) (l : list A) (i : nat) (x : A) :
  (forall x, 0 <= f x) -> l !! i = Some x -> f x <= total f l.
Proof.
  intros Hf. revert i. induction l as [|a l IH]; intros [|i] Hi; simplify_eq/=.
  - pose proof (total_nonneg f l Hf). lia.
  - specialize (IH i Hi). specialize (Hf a). lia.
Qed.

Lemma total_singleton {A : Type} (f : A -> Z) (x : A) : total f [x] = f x.
Proof. simpl. lia. Qed.

Lemma ind_nonneg (b : bool) : 0 <= ind b.
Proof. destruct b; simpl; lia. Qed.

Lemma total_plus {A : Type} (f g : A -> Z) (l : list A) :
  total (fun x => f x + g x) l = total f l + total g l.
Proof. induction l as [|x l IH]; simpl; [done | rewrite IH; lia]. Qed.

Lemma total_const_one {A : Type} (f : A -> Z) (l : list A) :
  (forall x, x ∈ l -> f x = 1) -> total f l = Z.of_nat (length l).
Proof.
  induction l as [|x l IH]; intros Hf; simpl; [done|].
  rewrite IH, (Hf x); [lia | by left | intros; apply Hf; by right].
Qed.

(** A key picks exactly one entry of a duplicate-free list that has it. *)
Lemma total_pick (b : bool) (key : string) (ks : list string) :
  NoDup ks -> key ∈ ks ->
  total (fun k => ind (b && bool_decide (key = k))) ks = ind b.
Proof.
  assert (forall l : list string, key ∉ l ->
            total (fun k => ind (b && bool_decide (key = k))) l = 0) as Hout.
  { induction l as [|k l IH]; simpl; [done|]. intros [Hne Hl]%not_elem_of_cons.
    rewrite (IH Hl), bool_decide_eq_false_2 by done. by destruct b. }
  induction 1 as [|k ks Hk Hnd IH]; [by intros ?%elem_of_nil|].
  intros [->|Hin]%elem_of_cons; simpl.
  - rewrite (Hout _ Hk), bool_decide_eq_true_2 by done. destruct b; simpl; lia.
  - rewrite (IH Hin), bool_decide_eq_false_2; [destruct b; simpl; lia|].
    intros ->. done.
Qed.

(** ** Arrays *)

Lemma indexOf_lt (key : string) (l : list string) (i : nat) :
  indexOf key l = Some i -> (i < length l)%nat.
Proof.
  revert i. induction l as [|x l IH]; intros i; simpl; [done|].
  case_bool_decide; [intros; simplify_eq; lia|].
  destruct (indexOf key l) as [i'|]; simpl; intros; simplify_eq.
  specialize (IH i' eq_refl). lia.
Qed.

Lemma length_splice_indexOf (key : string) (l : list string) :
  length (splice_indexOf key l) = pred (length l).
Proof.
  unfold splice_indexOf. destruct (indexOf key l) as [i|] eqn:Hi.
  - apply indexOf_lt in Hi. rewrite length_delete; [lia|].
    by apply lookup_lt_is_Some.
  - rewrite length_take. lia.
Qed.

(** ** Properties of the stream *)

Section StreamFacts.
Context {Raw Tx Pos : Type} `{!PositionModel Tx Pos}.
Implicit Types (s : @State Raw Tx Pos) (e : @Event Raw Tx Pos).
Implicit Types (es : list (@Event Raw Tx Pos)).
Implicit Types (chunk : option (@MeteoraPositionStreamData Tx Pos)).

(** *** The gate and the completion check, field by field *)

Lemma push_cases chunk s :
  push chunk s = super_push chunk s
  \/ push chunk s = s
  \/ (_pendingPositions s = [] /\ push chunk s = super_push None (set_cancelled true s)).
Proof.
  unfold push. destruct (_pendingPositions s); simpl; [|by left].
  repeat case_match; auto.
Qed.

Lemma push_pending chunk s :
  _pendingPositions s <> [] -> push chunk s = super_push chunk s.
Proof. unfold push. destruct (_pendingPositions s); simpl; congruence. Qed.

Lemma push_uncancelled chunk s :
  _cancelling s = false -> _cancelled s = false -> push chunk s = super_push chunk s.
Proof. unfold push. intros -> ->. simpl. by case_match. Qed.

(** *** Starting the finalize steps of a batch *)

Lemma createPosition_effect (tx : Tx) s s' child :
  _createPosition tx s = (s', child) ->
  exists o p,
    s' = set_output (output s ++ o) (set_pendingPositions p s)
    /\ Z.of_nat (length p)
        = Z.of_nat (length (_pendingPositions s))
          + match child with Some c => ind (unsettled c) | None => 0 end
    /\ total (fun m => ind (is_position_event m)) o
        + match child with Some c => ind (unemitted c) | None => 0 end = 1
    /\ total (fun m => ind (is_end m)) o = 0
    /\ total (fun m => ind (is_updating m)) o = 0
    /\ total (fun m => ind (is_error m)) o = 0.
Proof.
  unfold _createPosition. case_match eqn:Hclosed; intros ?; simplify_eq.
  - rewrite push_pending; [|simpl; by destruct (_pendingPositions s)].
    eexists [_], (splice_indexOf (position tx) (_pendingPositions s ++ [position tx])).
    split; [destruct s; reflexivity|].
    rewrite length_splice_indexOf, length_app. simpl.
    repeat split; lia.
  - exists [], (_pendingPositions s ++ [position tx]).
    split; [destruct s; simpl; unfold set_output, set_pendingPositions; simpl;
            by rewrite app_nil_r|].
    rewrite length_app. simpl. repeat split; lia.
Qed.

Lemma start_finalizers_effect (out : list Tx) s s' children :
  start_finalizers out s = (s', children) ->
  exists o p,
    s' = set_output (output s ++ o) (set_pendingPositions p s)
    /\ Z.of_nat (length p)
        = Z.of_nat (length (_pendingPositions s))
          + total (fun c => ind (unsettled c)) children
    /\ total (fun m => ind (is_position_event m)) o
        + total (fun c => ind (unemitted c)) children = opens out
    /\ total (fun m => ind (is_end m)) o = 0
    /\ total (fun m => ind (is_updating m)) o = 0
    /\ total (fun m => ind (is_error m)) o = 0.
Proof.
  revert s s' children. induction out as [|tx out IH]; intros s s' children; simpl.
  - intros [= <- <-]. exists [], (_pendingPositions s).
    split; [destruct s; simpl; unfold set_output, set_pendingPositions; simpl;
            by rewrite app_nil_r|].
    unfold opens. simpl. repeat split; lia.
  - unfold opens; simpl. destruct (open tx); simpl.
    + destruct (_createPosition tx s) as [s1 child] eqn:H1.
      destruct (start_finalizers out s1) as [s2 rest] eqn:H2.
      intros [= <- <-].
      apply createPosition_effect in H1 as (o1 & p1 & -> & Hp1 & Ha1 & He1 & Hu1 & Hr1).
      apply IH in H2 as (o2 & p2 & -> & Hp2 & Ha2 & He2 & Hu2 & Hr2).
      exists (o1 ++ o2), p2.
      split; [destruct s; simpl; unfold set_output, set_pendingPositions; simpl;
              by rewrite app_assoc|].
      simpl in Hp2. rewrite !total_app. unfold opens in Ha2.
      destruct child; simpl; repeat split; lia.
    + intros H2. apply IH in H2 as (o2 & p2 & -> & Hp2 & Ha2 & He2 & Hu2 & Hr2).
      exists o2, p2. unfold opens in Ha2. repeat split; try done; lia.
Qed.

(** *** The invariant is kept by every segment *)

Lemma queued_nonneg (p : AsyncBatchProcessor Raw) : 0 <= queued p.
Proof.
  unfold queued. induction (queue p) as [|b q IH]; simpl; lia.
Qed.

Lemma queued_addBatch (b : list Raw) (p : AsyncBatchProcessor Raw) :
  queued (addBatch b p) = queued p + Z.of_nat (length b).
Proof.
  unfold queued, addBatch. simpl.
  induction (queue p) as [|x q IH]; simpl; lia.
Qed.

Lemma queued_next (p p' : AsyncBatchProcessor Raw) started :
  next p = (p', started) ->
  queued p = queued p'
             + match started with Some b => Z.of_nat (length b) | None => 0 end.
Proof.
  unfold next. destruct (processing p); [intros [= <- <-]; lia|].
  destruct p as [[|b q] busy]; simpl; intros [= <- <-]; unfold queued; simpl; lia.
Qed.

Lemma weight_nonneg (t : @BatchTask Raw Tx Pos) : task_ok t -> 0 <= weight t.
Proof. destruct t as [c [b|]|c r n ch| |]; simpl; lia. Qed.

Lemma Inv_push chunk s d :
  Inv s d ->
  is_position_event (SuperPush chunk) = false ->
  is_updating (SuperPush chunk) = false ->
  Inv (push chunk s) d.
Proof.
  intros [Hp Ht Hb Ha Hu] Hc1 Hc2.
  destruct (push_cases chunk s) as [-> | [-> | [_ ->]]]; [|done|].
  - split; try done.
    + unfold position_events, not_emitted in *.
      change (output (super_push chunk s)) with (output s ++ [SuperPush chunk]).
      rewrite total_app, total_singleton, Hc1. simpl. lia.
    + change (output (super_push chunk s)) with (output s ++ [SuperPush chunk]).
      rewrite total_app, total_singleton, Hc2. simpl. lia.
  - split; try done.
    + unfold position_events, not_emitted in *. simpl. rewrite total_app. simpl. lia.
    + simpl. rewrite total_app. simpl. lia.
Qed.

Lemma Inv_finish s d : Inv s d -> Inv (_finish s) d.
Proof.
  intros HI. unfold _finish. case_match; [|done].
  apply Inv_push; [|done..]. by destruct HI.
Qed.

Lemma Inv_processBatch c s s' d :
  Inv s d -> _processBatch c s = Some s' -> Inv s' d.
Proof.
  intros [Hp Ht Hb Ha Hu]. unfold _processBatch.
  case_match; [|intros [= <-]; destruct c; by split].
  destruct (_processor s) as [p|] eqn:Hproc; [|done].
  destruct (next p) as [p' started] eqn:Hnext. intros [= <-].
  apply queued_next in Hnext.
  assert (Inv (set_tasks (tasks s ++ [AwaitNext c started])
                 (set_processor (Some p') s)) d) as HI.
  { split; simpl; try done.
    - unfold in_flight in *. simpl. rewrite total_app. simpl. lia.
    - apply Forall_app. split; [done|]. by constructor.
    - unfold backlog in *. simpl. rewrite total_app. rewrite Hproc in Hb.
      simpl. destruct started; lia.
    - unfold not_emitted in *. simpl. rewrite total_app. simpl.
      unfold position_events in *. simpl. lia. }
  destruct c; [done|]. by destruct HI.
Qed.

Lemma push_effect chunk s :
  exists o c,
    push chunk s = set_output (output s ++ o) (set_cancelled c s)
    /\ (o = [] \/ o = [SuperPush chunk] \/ (o = [SuperPush None] /\ _pendingPositions s = [])).
Proof.
  destruct (push_cases chunk s) as [-> | [-> | [Hp ->]]].
  - exists [SuperPush chunk], (_cancelled s). split; [by destruct s | auto].
  - exists [], (_cancelled s).
    split; [destruct s; unfold set_output, set_cancelled; simpl; by rewrite app_nil_r | auto].
  - exists [SuperPush None], true. split; [by destruct s | auto].
Qed.

Lemma all_settled_totals (children : list (@Finalize Tx Pos)) :
  all_settled children = true ->
  total (fun c => ind (unsettled c)) children = 0
  /\ total (fun c => ind (unemitted c)) children = 0.
Proof.
  induction children as [|c l IH]; simpl; [done|].
  intros [Hc Hl]%andb_prop. destruct (IH Hl) as [-> ->].
  unfold unsettled, unemitted. destruct (fstage c); done.
Qed.

Lemma queued_settle busy (p : option (AsyncBatchProcessor Raw)) :
  match settle busy <$> p with Some q => queued q | None => 0 end
  = match p with Some q => queued q | None => 0 end.
Proof. by destruct p. Qed.

Lemma Inv_notify_end c l s d : Inv s d -> Inv (notify_end c l s) d.
Proof. intros [Hp Ht Hb Ha Hu]. destruct c; by split. Qed.

Lemma Inv_processBatch_next i (out : list Tx) s s1 fin d :
  Inv s d -> _processBatch_next i out s = Some (s1, fin) -> Inv s1 d.
Proof.
  intros [Hp Ht Hb Ha Hu]. unfold _processBatch_next.
  destruct (tasks s !! i) as [[c started|c r n ch| |]|] eqn:Hi; try done.
  generalize (queued_settle false (_processor s)).
  generalize (settle false <$> _processor s). intros proc' Hq.
  assert (forall s', _pendingPositions s' = _pendingPositions s ->
            _transactionsProcessedCount s'
            = _transactionsProcessedCount s + @weight Raw Tx Pos (AwaitNext c started) ->
            (_processor s' = proc' \/ (_processor s' = _processor s)) ->
            _transactions s' = _transactions s -> output s' = output s ->
            tasks s' = <[i:=Returned]> (tasks s) ->
            Inv (notify_end c EndAwaitDelay s') d) as Hret.
  { intros s' E1 E2 E3 E4 E5 E6. apply Inv_notify_end. split.
    - rewrite E1. unfold in_flight in *. rewrite E6.
      rewrite (total_insert _ _ _ _ _ Hi). simpl. lia.
    - rewrite E6. by apply Forall_insert.
    - unfold backlog in *. rewrite E2, E6.
      rewrite (total_insert _ _ _ _ _ Hi).
      destruct E3 as [-> | ->]; simpl; lia.
    - unfold position_events, not_emitted in *. rewrite E4, E5, E6.
      rewrite (total_insert _ _ _ _ _ Hi). simpl. lia.
    - by rewrite E5. }
  destruct started as [b|]; simpl in Hret |- *.
  - destruct (0 <? Z.of_nat (length b)) eqn:Hpos.
    + destruct (0 <? length out)%nat eqn:Hout.
      * match goal with |- context [start_finalizers out (push ?ch ?s2)] =>
          destruct (push_effect ch s2) as (o1 & c1 & Hpush & Ho1) end.
        rewrite Hpush.
        match goal with |- context [start_finalizers out ?s2] =>
          destruct (start_finalizers out s2) as [s3 children] eqn:Hsf end.
        apply start_finalizers_effect in Hsf as (o & p & -> & Hlen & Hacc & He & Hu' & Hr).
        intros [= <- <-]. simpl in Hlen.
        assert (total (fun m => ind (is_position_event m)) o1 = 0
                /\ total (fun m => ind (is_updating m)) o1 = 0) as [Ho1a Ho1b].
        { destruct Ho1 as [-> | [-> | [-> _]]]; done. }
        split; simpl.
        -- unfold in_flight in *. simpl.
           rewrite (total_insert _ _ _ _ _ Hi). simpl. lia.
        -- apply Forall_insert; [done|]. simpl. lia.
        -- unfold backlog in *. simpl.
           rewrite (total_insert _ _ _ _ _ Hi). simpl. lia.
        -- unfold position_events, not_emitted, opens in *. simpl.
           rewrite (total_insert _ _ _ _ _ Hi). rewrite !total_app. simpl.
           unfold opens in Hacc. lia.
        -- rewrite !total_app. lia.
      * intros [= <- <-]. apply Hret; simpl; auto; lia.
    + intros [= <- <-]. apply Hret; simpl; auto. lia.
  - intros [= <- <-]. apply Hret; simpl; auto. lia.
Qed.

Lemma Inv_processBatch_throw i busy s s1 fin d :
  Inv s d -> _processBatch_throw i busy s = Some (s1, fin) -> Inv s1 d.
Proof.
  intros [Hp Ht Hb Ha Hu]. unfold _processBatch_throw.
  destruct (tasks s !! i) as [[c [b|]|c r n ch| |]|] eqn:Hi; try done.
  pose proof (queued_settle busy (_processor s)) as Hq.
  intros [= <- <-]. apply Inv_notify_end. split; simpl; try done.
  - unfold in_flight in *. simpl. rewrite (total_insert _ _ _ _ _ Hi). simpl. lia.
  - by apply Forall_insert.
  - unfold backlog in *. simpl. rewrite (total_insert _ _ _ _ _ Hi). simpl. lia.
  - unfold position_events, not_emitted in *. simpl.
    rewrite (total_insert _ _ _ _ _ Hi). simpl. lia.
Qed.

Lemma Inv_processBatch_all i s s1 fin d :
  Inv s d -> _processBatch_all i s = Some (s1, fin) -> Inv s1 d.
Proof.
  intros [Hp Ht Hb Ha Hu]. unfold _processBatch_all.
  destruct (tasks s !! i) as [[c started|c [|] n ch| |]|] eqn:Hi; try done.
  destruct (all_settled ch) eqn:Hall; [|done].
  apply all_settled_totals in Hall as [Hs He].
  intros [= <- <-]. apply Inv_notify_end. split; simpl; try done.
  - unfold in_flight in *. simpl. rewrite (total_insert _ _ _ _ _ Hi). simpl. lia.
  - by apply Forall_insert.
  - unfold backlog in *. simpl. rewrite (total_insert _ _ _ _ _ Hi). simpl. lia.
  - unfold position_events, not_emitted in *. simpl.
    rewrite (total_insert _ _ _ _ _ Hi). simpl. lia.
Qed.

(** While a finalize step is unsettled the pending list is not empty. *)
Lemma pending_of_unsettled s d i c r n children j child :
  Inv s d ->
  tasks s !! i = Some (AwaitAll c r n children) ->
  children !! j = Some child ->
  unsettled child = true ->
  _pendingPositions s <> [].
Proof.
  intros [Hp _ _ _ _] Hi Hj Hun Hnil. rewrite Hnil in Hp. simpl in Hp.
  unfold in_flight in Hp.
  pose proof (total_lookup_le
    (fun t : @BatchTask Raw Tx Pos => total (fun c => ind (unsettled c)) (children_of t))
    (tasks s) i _ (fun t => total_nonneg _ _ (fun c => ind_nonneg _)) Hi) as H1.
  simpl in H1.
  pose proof (total_lookup_le (fun c : @Finalize Tx Pos => ind (unsettled c))
    children j _ (fun c => ind_nonneg _) Hj) as H2.
  simpl in H2. rewrite Hun in H2. simpl in H2. lia.
Qed.

Lemma with_child_inv i j s k s1 fin :
  with_child i j s k = Some (s1, fin) ->
  exists c r n children child sk child' r',
    tasks s !! i = Some (AwaitAll c r n children)
    /\ children !! j = Some child
    /\ k c r child = Some (sk, child', r')
    /\ s1 = set_tasks (<[i := AwaitAll c r' n (<[j := child']> children)]> (tasks sk)) sk
    /\ fin = false.
Proof.
  unfold with_child.
  destruct (tasks s !! i) as [[c started|c r n ch| |]|] eqn:Hi; try done.
  destruct (ch !! j) as [child|] eqn:Hj; [|done].
  destruct (k c r child) as [[[sk child'] r']|] eqn:Hk; [|done].
  intros [= <- <-]. by exists c, r, n, ch, child, sk, child', r'.
Qed.

Lemma Inv_child s d sk i c r r' n children j child child' o :
  Inv s d ->
  tasks s !! i = Some (AwaitAll c r n children) ->
  children !! j = Some child ->
  output sk = output s ++ o ->
  tasks sk = tasks s ->
  _transactions sk = _transactions s ->
  _transactionsProcessedCount sk = _transactionsProcessedCount s ->
  _processor sk = _processor s ->
  Z.of_nat (length (_pendingPositions sk)) + ind (unsettled child)
  = Z.of_nat (length (_pendingPositions s)) + ind (unsettled child') ->
  total (fun m => ind (is_position_event m)) o + ind (unemitted child')
  = ind (unemitted child) ->
  total (fun m => ind (is_updating m)) o = 0 ->
  Inv (set_tasks (<[i := AwaitAll c r' n (<[j := child']> children)]> (tasks sk)) sk) d.
Proof.
  intros [Hp Ht Hb Ha Hu] Hi Hj E1 E2 E3 E4 E5 Hlen Hacc Hupd.
  pose proof (Forall_lookup_1 _ _ _ _ Ht Hi) as Hok. simpl in Hok.
  split; simpl.
  - unfold in_flight in *. simpl. rewrite E2, (total_insert _ _ _ _ _ Hi). simpl.
    rewrite (total_insert _ _ _ _ _ Hj). lia.
  - rewrite E2. by apply Forall_insert.
  - unfold backlog in *. simpl. rewrite E2, E4, E5, (total_insert _ _ _ _ _ Hi).
    simpl. lia.
  - unfold position_events, not_emitted in *. simpl.
    rewrite E1, E2, E3, (total_insert _ _ _ _ _ Hi). simpl.
    rewrite (total_insert _ _ _ _ _ Hj). rewrite total_app. lia.
  - rewrite E1, total_app. lia.
Qed.

Lemma Inv_updateOpenPosition i j (p : Pos) s s1 fin d :
  Inv s d -> _updateOpenPosition i j p s = Some (s1, fin) -> Inv s1 d.
Proof.
  intros HI Hw.
  apply with_child_inv in Hw as (c & r & n & ch & child & sk & child' & r' &
                                 Hi & Hj & Hk & -> & ->).
  destruct (fstage child) eqn:Hst; try done. injection Hk as <- <- <-.
  assert (unsettled child = true) as Hun by (unfold unsettled; by rewrite Hst).
  pose proof (pending_of_unsettled _ _ _ _ _ _ _ _ _ HI Hi Hj Hun) as Hne.
  rewrite (push_pending _ _ Hne).
  eapply (Inv_child s d _ i c r r n ch j child _ [_]); try done.
  - simpl. rewrite Hun. unfold unsettled. simpl. lia.
  - unfold unemitted. rewrite Hst. simpl. lia.
Qed.

Lemma Inv_updateOpenPosition_throw i j s s1 fin d :
  Inv s d -> _updateOpenPosition_throw i j s = Some (s1, fin) -> Inv s1 d.
Proof.
  intros HI Hw.
  apply with_child_inv in Hw as (c & r & n & ch & child & sk & child' & r' &
                                 Hi & Hj & Hk & -> & ->).
  destruct (fstage child) eqn:Hst; try done. injection Hk as <- <- <-.
  eapply (Inv_child s d _ i c r true n ch j child _ []); try done.
  - by rewrite app_nil_r; destruct r, c.
  - by destruct r, c.
  - by destruct r, c.
  - by destruct r, c.
  - by destruct r, c.
  - unfold unsettled. rewrite Hst. simpl. destruct r, c; simpl; lia.
  - unfold unemitted. rewrite Hst. simpl. lia.
Qed.

Lemma Inv_createPosition_resume i j s s1 fin d :
  Inv s d -> _createPosition_resume i j s = Some (s1, fin) -> Inv s1 d.
Proof.
  intros HI Hw.
  apply with_child_inv in Hw as (c & r & n & ch & child & sk & child' & r' &
                                 Hi & Hj & Hk & -> & ->).
  destruct (fstage child) eqn:Hst; try done. injection Hk as <- <- <-.
  assert (unsettled child = true) as Hun by (unfold unsettled; by rewrite Hst).
  pose proof (pending_of_unsettled _ _ _ _ _ _ _ _ _ HI Hi Hj Hun) as Hne.
  eapply (Inv_child s d _ i c r r n ch j child _ []); try done.
  - simpl. by rewrite app_nil_r.
  - simpl. rewrite length_splice_indexOf, Hun. unfold unsettled. simpl.
    destruct (_pendingPositions s); [done|]. simpl. lia.
  - unfold unemitted. rewrite Hst. simpl. lia.
Qed.

Lemma Inv_parseTransactions (d0 : @ParsedTransactionStreamData Raw) s s1 fin d :
  Inv s d -> _parseTransactions d0 s = Some (s1, fin) ->
  Inv s1 (d + delivered_by (SrcData d0 : @Event Raw Tx Pos)).
Proof.
  intros HI. destruct d0 as [n| |b]; simpl.
  - intros [= <- <-]. rewrite Z.add_0_r. apply Inv_push; [|done..]. by destruct HI.
  - intros [= <- <-]. rewrite Z.add_0_r. apply Inv_push; [|done..]. by destruct HI.
  - destruct (_processBatch FromData _) as [s'|] eqn:Hpb; [|done].
    intros [= <- <-]. eapply Inv_processBatch; [|done].
    destruct HI as [Hp Ht Hb Ha Hu]. split; try done.
    unfold backlog in *. simpl. destruct (_processor s) as [q|]; simpl.
    + rewrite queued_addBatch. lia.
    + lia.
Qed.

Lemma Inv_end_loop s s1 fin d : Inv s d -> end_loop s = Some (s1, fin) -> Inv s1 d.
Proof.
  intros HI. unfold end_loop. destruct (_processor s) as [q|]; [|done].
  destruct (isComplete q).
  - intros [= <- <-]. by destruct HI.
  - destruct (_processBatch FromEnd s) as [s'|] eqn:Hpb; [|done].
    intros [= <- <-]. by eapply Inv_processBatch.
Qed.

Lemma Inv_handle e s s1 fin d :
  Inv s d -> handle e s = Some (s1, fin) -> Inv s1 (d + delivered_by e).
Proof.
  intros HI. destruct e; simpl; rewrite ?Z.add_0_r.
  - case_match; [done|]. intros [= <- <-].
    destruct HI as [Hp Ht Hb Ha Hu]. split; try done.
    unfold backlog in *. simpl. unfold queued at 1. simpl.
    pose proof (Hq := fun q => queued_nonneg q).
    destruct (_processor s) as [q|]; [specialize (Hq q)|]; lia.
  - case_match; [|done]. by apply Inv_parseTransactions.
  - case_match; [|done]. case_match; try done.
    apply Inv_end_loop. by destruct HI.
  - case_match; [|done]. intros [= <- <-].
    destruct HI as [Hp Ht Hb Ha Hu]. split; try done.
    + unfold position_events, not_emitted in *. simpl. rewrite total_app. simpl. lia.
    + simpl. rewrite total_app. simpl. lia.
  - unfold cancel. destruct (_transactionStream s); intros [= <- <-]; [by destruct HI | done].
  - by apply Inv_processBatch_next.
  - by apply Inv_processBatch_throw.
  - by apply Inv_updateOpenPosition.
  - by apply Inv_updateOpenPosition_throw.
  - by apply Inv_createPosition_resume.
  - by apply Inv_processBatch_all.
  - case_match; try done. by apply Inv_end_loop.
Qed.

Lemma Inv_fire e s s' d : Inv s d -> fire e s = Some s' -> Inv s' (d + delivered_by e).
Proof.
  intros HI. unfold fire. destruct (handle e s) as [[s1 [|]]|] eqn:Hh; [| |done].
  - intros [= <-]. apply Inv_finish. by eapply Inv_handle.
  - intros [= <-]. by eapply Inv_handle.
Qed.

Lemma Inv_constructor : Inv (@constructor Raw Tx Pos) 0.
Proof. split; simpl; try done. Qed.

(** *** Which segments touch the flags *)

Lemma quiet_refl s : quiet s s.
Proof. unfold quiet. by split_and!. Qed.

Lemma quiet_trans s1 s2 s3 : quiet s1 s2 -> quiet s2 s3 -> quiet s1 s3.
Proof.
  intros (A1 & A2 & A3 & A4 & A5 & A6) (B1 & B2 & B3 & B4 & B5 & B6).
  unfold quiet. split_and!; try congruence; [tauto|].
  intros Hc1 Hc2. destruct (A6 Hc1 Hc2) as [Hc3 He]. rewrite <- A3 in Hc1.
  destruct (B6 Hc1 Hc3). split; congruence.
Qed.

Lemma quiet_fields s s' :
  _transactionsReceivedCount s' = _transactionsReceivedCount s ->
  _receivedAllTransactions s' = _receivedAllTransactions s ->
  _cancelling s' = _cancelling s ->
  _done s' = _done s ->
  _cancelled s' = _cancelled s ->
  ends s' = ends s ->
  quiet s s'.
Proof. intros. unfold quiet. split_and!; try congruence. intros; split; congruence. Qed.

Lemma ends_super_push chunk s :
  ends (super_push chunk s) = ends s + ind (is_end (SuperPush chunk)).
Proof.
  unfold ends. change (output (super_push chunk s)) with (output s ++ [SuperPush chunk]).
  by rewrite total_app, total_singleton.
Qed.

Lemma quiet_push (x : @MeteoraPositionStreamData Tx Pos) s : quiet s (push (Some x) s).
Proof.
  unfold push. repeat case_match; try apply quiet_refl.
  - apply quiet_fields; try done. rewrite ends_super_push. simpl. lia.
  - unfold quiet. split_and!; try done. intros Hc1 Hc2. by rewrite Hc1 in *.
  - apply quiet_fields; try done. rewrite ends_super_push. simpl. lia.
Qed.

Lemma quiet_start_finalizers (out : list Tx) s s' children :
  start_finalizers out s = (s', children) -> quiet s s'.
Proof.
  intros (o & p & -> & _ & _ & He & _)%start_finalizers_effect.
  apply quiet_fields; try done. unfold ends. simpl. rewrite total_app. lia.
Qed.

Lemma quiet_notify_end c l s : quiet s (notify_end c l s).
Proof. destruct c; [apply quiet_refl | by apply quiet_fields]. Qed.

Lemma quiet_processBatch c s s' : _processBatch c s = Some s' -> quiet s s'.
Proof.
  unfold _processBatch. case_match; [|intros [= <-]; apply quiet_notify_end].
  destruct (_processor s) as [p|]; [|done]. destruct (next p) as [p' started].
  intros [= <-]. destruct c; by apply quiet_fields.
Qed.

Lemma quiet_processBatch_next i (out : list Tx) s s1 fin :
  _processBatch_next i out s = Some (s1, fin) -> quiet s s1.
Proof.
  unfold _processBatch_next.
  destruct (tasks s !! i) as [[c started|c r n ch| |]|] eqn:Hi; try done.
  generalize (settle false <$> _processor s). intros proc'.
  assert (forall s', quiet s s' -> quiet s (notify_end c EndAwaitDelay s')) as Hret.
  { intros s' Hq. eapply quiet_trans; [done|apply quiet_notify_end]. }
  destruct started as [b|]; simpl.
  - destruct (0 <? Z.of_nat (length b)).
    + destruct (0 <? length out)%nat.
      * match goal with |- context [start_finalizers out ?s2] =>
          destruct (start_finalizers out s2) as [s3 children] eqn:Hsf;
          assert (quiet s s2) as Hq1 end.
        { eapply quiet_trans; [|apply quiet_push]. by apply quiet_fields. }
        apply quiet_start_finalizers in Hsf. intros [= <- <-].
        eapply quiet_trans; [done|]. eapply quiet_trans; [done|]. by apply quiet_fields.
      * intros [= <- <-]. apply Hret. by apply quiet_fields.
    + intros [= <- <-]. apply Hret. by apply quiet_fields.
  - intros [= <- <-]. apply Hret. by apply quiet_fields.
Qed.

Lemma quiet_with_child i j s k s1 fin :
  with_child i j s k = Some (s1, fin) ->
  (forall c r child sk child' r', k c r child = Some (sk, child', r') -> quiet s sk) ->
  quiet s s1.
Proof.
  intros (c & r & n & ch & child & sk & child' & r' & Hi & Hj & Hk & -> & ->)%with_child_inv Hq.
  eapply quiet_trans; [by eapply Hq|]. by apply quiet_fields.
Qed.

Lemma quiet_end_loop s s1 fin : end_loop s = Some (s1, fin) -> quiet s s1.
Proof.
  unfold end_loop. destruct (_processor s) as [q|]; [|done].
  destruct (isComplete q).
  - intros [= <- <-]. by apply quiet_fields.
  - destruct (_processBatch FromEnd s) as [s'|] eqn:Hpb; [|done].
    intros [= <- <-]. by eapply quiet_processBatch.
Qed.

Lemma handle_quiet e s s1 fin : handle e s = Some (s1, fin) -> quiet (noted e s) s1.
Proof.
  destruct e; simpl.
  - case_match; [done|]. intros [= <- <-]. by apply quiet_fields.
  - case_match; [|done]. destruct d as [n| |b]; simpl.
    + intros [= <- <-]. apply quiet_push.
    + intros [= <- <-]. apply quiet_push.
    + destruct (_processBatch FromData _) as [s'|] eqn:Hpb; [|done].
      intros [= <- <-]. apply quiet_processBatch in Hpb.
      eapply quiet_trans; [|done]. by apply quiet_fields.
  - case_match; [|done]. case_match; try done. apply quiet_end_loop.
  - case_match; [|done]. intros [= <- <-]. apply quiet_fields; try done.
    unfold ends. simpl. rewrite total_app. simpl. lia.
  - unfold cancel, listening. destruct (_transactionStream s); intros [= <- <-].
    + by apply quiet_fields.
    + apply quiet_refl.
  - apply quiet_processBatch_next.
  - unfold _processBatch_throw.
    destruct (tasks s !! i) as [[c [b|]|c r n ch| |]|] eqn:Hi; try done.
    intros [= <- <-]. destruct c; by apply quiet_fields.
  - intros Hw. eapply quiet_with_child; [done|]. simpl. intros c r child sk child' r'.
    case_match; try done. intros [= <- <- <-]. apply quiet_push.
  - intros Hw. eapply quiet_with_child; [done|]. simpl. intros c r child sk child' r'.
    case_match; try done. intros [= <- <- <-]. destruct r, c; by apply quiet_fields.
  - intros Hw. eapply quiet_with_child; [done|]. simpl. intros c r child sk child' r'.
    case_match; try done. intros [= <- <- <-]. by apply quiet_fields.
  - unfold _processBatch_all.
    destruct (tasks s !! i) as [[c started|c [|] n ch| |]|] eqn:Hi; try done.
    destruct (all_settled ch); [|done].
    intros [= <- <-]. destruct c; by apply quiet_fields.
  - case_match; try done. apply quiet_end_loop.
Qed.

(** *** The counters along an execution *)

Lemma finish_fields s :
  _transactionsReceivedCount (_finish s) = _transactionsReceivedCount s
  /\ _receivedAllTransactions (_finish s) = _receivedAllTransactions s
  /\ _pendingPositions (_finish s) = _pendingPositions s
  /\ _transactionsProcessedCount (_finish s) = _transactionsProcessedCount s.
Proof.
  unfold _finish. case_match; [|done].
  destruct (push_effect None (set_done true s)) as (o & c & -> & _). done.
Qed.

Lemma fire_noted e s s' :
  fire e s = Some s' ->
  _transactionsReceivedCount s' = reported_by e (_transactionsReceivedCount s)
  /\ (_receivedAllTransactions s = true -> _receivedAllTransactions s' = true).
Proof.
  unfold fire. destruct (handle e s) as [[s1 fin]|] eqn:Hh; [|done].
  apply handle_quiet in Hh as (H1 & H2 & _).
  assert (_transactionsReceivedCount s1 = reported_by e (_transactionsReceivedCount s)
          /\ (_receivedAllTransactions s = true -> _receivedAllTransactions s1 = true))
    as [E1 E2].
  { rewrite H1, H2. destruct e as [|[| |]| | | | | | | | | |]; simpl; try done.
    destruct (listening s); done. }
  destruct (finish_fields s1) as (F1 & F2 & _).
  destruct fin; intros [= <-]; [rewrite F1, F2|]; done.
Qed.

Lemma backlog_nonneg s d : Inv s d -> 0 <= backlog s.
Proof.
  intros [_ Ht _ _ _]. unfold backlog.
  assert (0 <= total weight (tasks s)).
  { induction Ht as [|t l Hok _ IH]; simpl; [lia|]. apply weight_nonneg in Hok. lia. }
  pose proof (fun q : AsyncBatchProcessor Raw => queued_nonneg q) as Hq.
  destruct (_processor s) as [q|]; [specialize (Hq q)|]; lia.
Qed.

(** With nothing taken from the queue and uncounted, nothing is pending. *)
Lemma drained_no_pending s d : Inv s d -> backlog s <= 0 -> _pendingPositions s = [].
Proof.
  intros [Hp Ht _ _ _] Hb. unfold backlog, in_flight in *.
  assert (0 <= match _processor s with Some p => queued p | None => 0 end) as Hq.
  { pose proof (fun q : AsyncBatchProcessor Raw => queued_nonneg q) as Hq.
    destruct (_processor s) as [q|]; [specialize (Hq q)|]; lia. }
  assert (total weight (tasks s) <= 0 ->
          total (fun t => total (fun c => ind (unsettled c)) (children_of t)) (tasks s) = 0)
    as Hz.
  { clear Hp Hb. induction Ht as [|t l Hok Hl IH]; simpl; [done|].
    assert (0 <= total weight l).
    { clear IH. induction Hl as [|t' l' Hok' _ IH']; simpl; [lia|].
      apply weight_nonneg in Hok'. lia. }
    destruct t as [c [b|]|c r n ch| |]; simpl in *; intros; try (rewrite IH; lia); lia. }
  rewrite Hz in Hp by lia. by destruct (_pendingPositions s).
Qed.

Lemma run_counts es s s' d :
  Inv s d -> run es s = Some s' ->
  Inv s' (d + delivered_total es)
  /\ _transactionsReceivedCount s' = reported_total (_transactionsReceivedCount s) es.
Proof.
  revert s d. induction es as [|e es IH]; intros s d HI; simpl.
  - intros [= <-]. by rewrite Z.add_0_r.
  - destruct (fire e s) as [s1|] eqn:Hf; [|done]. intros Hrun.
    pose proof (Inv_fire _ _ _ _ HI Hf) as HI1.
    apply fire_noted in Hf as [Hr _].
    destruct (IH _ _ HI1 Hrun) as [HI2 Hr2]. rewrite Z.add_assoc. by rewrite Hr2, Hr.
Qed.

Lemma counts_cover_last r d es :
  es <> [] -> @counts_cover_from Raw Tx Pos r d es = true ->
  d + delivered_total es <= reported_total r es.
Proof.
  revert r d. induction es as [|e es IH]; intros r d Hne; [done|]. simpl.
  intros [Hle Hc]%andb_prop. destruct es as [|e' es'].
  - simpl. lia.
  - specialize (IH _ _ ltac:(done) Hc). lia.
Qed.

(** C2.  The overridden [push] is the four-rule gate, in priority order:
    a non-empty pending list lets the chunk through; otherwise a requested
    and not yet finalized cancellation marks itself finalized and emits the
    terminal signal in place of the chunk; otherwise a finalized
    cancellation drops the chunk without any effect; otherwise the chunk is
    emitted. *)
Theorem push_applies_gate chunk s :
  (_pendingPositions s <> [] -> push chunk s = super_push chunk s) /\
  (_pendingPositions s = [] -> _cancelling s = true -> _cancelled s = false ->
     push chunk s = super_push None (set_cancelled true s)
     /\ output (push chunk s) = output s ++ [SuperPush None]
     /\ _cancelled (push chunk s) = true) /\
  (_pendingPositions s = [] -> _cancelled s = true -> push chunk s = s) /\
  (_pendingPositions s = [] -> _cancelling s = false -> _cancelled s = false ->
     push chunk s = super_push chunk s).
Proof.
  unfold push. destruct (_pendingPositions s) as [|k l] eqn:Hp; simpl.
  - repeat split; try congruence; intros; repeat match goal with
      | H : _ = true |- _ => rewrite H
      | H : _ = false |- _ => rewrite H end; simpl; try done.
    destruct (_cancelling s); done.
  - repeat split; congruence.
Qed.

Lemma fire_before_init e s' :
  fire e (@constructor Raw Tx Pos) = Some s' -> e <> InitResolved -> s' = constructor.
Proof.
  intros Hf Hne. destruct e; try done; unfold fire in Hf; simpl in Hf; simplify_eq; done.
Qed.

(** C10.  Until [_init] has resumed from [await getDlmmPairs()] the field
    [_transactionStream] is unassigned: a call of [cancel] throws a
    [TypeError] and leaves the stream as it was, the request unrecorded. *)
Theorem cancel_before_init_throws es s :
  run es constructor = Some s -> InitResolved ∉ es ->
  cancel s = inl TypeError /\ fire Cancel s = Some s /\ _cancelling s = false.
Proof.
  intros Hrun Hno.
  assert (s = constructor) as ->; [|done].
  induction es as [|e es IH]; simplify_eq/=; [done|].
  apply not_elem_of_cons in Hno as [Hne Hno].
  destruct (fire e constructor) as [s1|] eqn:Hf; [|done].
  apply fire_before_init in Hf; [|done].
  subst s1. by apply IH.
Qed.

(** C9, as the code has it.  In every execution in which the source never
    delivers more raw transactions than the signature count it last
    reported, the processed count is at most the received count at every
    point; and in every execution whatsoever the all-signatures-found flag,
    once true, stays true. *)
Theorem counters_ordered_under_covering_source :
  (forall es s,
     run es constructor = Some s -> counts_cover es = true ->
     _transactionsProcessedCount s <= _transactionsReceivedCount s)
  /\ (forall es s s',
       run es s = Some s' ->
       _receivedAllTransactions s = true -> _receivedAllTransactions s' = true).
Proof.
  split.
  - intros es s Hrun Hcover.
    destruct (run_counts _ _ _ _ Inv_constructor Hrun) as [HI Hr].
    pose proof (backlog_nonneg _ _ HI) as Hb. destruct HI as [_ _ Hle _ _].
    destruct es as [|e es]; [by simplify_eq/=|].
    apply counts_cover_last in Hcover; [|done]. simpl in *. lia.
  - intros es. induction es as [|e es IH]; intros s s'; simpl.
    + by intros [= <-].
    + destruct (fire e s) as [s1|] eqn:Hf; [|done]. intros Hrun Hall.
      apply fire_noted in Hf as [_ Hf]. eauto.
Qed.

Lemma opens_by_key (txs : list Tx) (ks : list string) :
  NoDup ks -> (forall t, t ∈ txs -> position t ∈ ks) ->
  opens txs = total (fun k => opens_of k txs) ks.
Proof.
  intros Hnd. induction txs as [|t txs IH]; intros Hin.
  - unfold opens, opens_of. simpl. clear. induction ks; simpl; lia.
  - unfold opens, opens_of in *. simpl. rewrite total_plus.
    rewrite <- IH by (intros; apply Hin; by right).
    rewrite (total_pick (open t) (position t) ks Hnd); [done|]. apply Hin. by left.
Qed.

(** C5, as the code has it.  A finalize step is started once per classified
    transaction whose [open] flag is set, and each one pushes one
    [positionAndTransactions] record: at every point the records pushed and
    the finalize steps that have not pushed yet add up to the open
    transactions of the log.  Once every started step has pushed, and when
    every position key of the log has exactly one open transaction, the
    number of records is the number of distinct position keys. *)
Theorem one_position_event_per_open_transaction es s :
  run es constructor = Some s ->
  position_events s + not_emitted s = opens (_transactions s)
  /\ (not_emitted s = 0 ->
      (forall k, k ∈ position_keys (_transactions s) -> opens_of k (_transactions s) = 1) ->
      position_events s = Z.of_nat (length (position_keys (_transactions s)))).
Proof.
  intros Hrun. destruct (run_counts _ _ _ _ Inv_constructor Hrun) as [[_ _ _ Ha _] _].
  split; [done|]. intros Hz Hone.
  rewrite <- (total_const_one _ _ Hone).
  rewrite <- opens_by_key; [lia | apply NoDup_remove_dups|].
  intros t Ht. apply elem_of_remove_dups, list_elem_of_fmap. eauto.
Qed.

(** C6, as the code has it.  For a position whose aggregate is not closed
    [_createPosition] registers the key and calls the augmenter, pushing
    nothing yet; when the augmenter resolves, the augmented
    [positionAndTransactions] record is pushed and passes the gate.  No
    [updatingOpenPositions] chunk is ever pushed. *)
Theorem open_position_augmented_then_emitted :
  (forall (tx : Tx) s,
     isClosed (newMeteoraPosition (aggregate_transactions (position tx) s)) = false ->
     _createPosition tx s
     = (set_pendingPositions (_pendingPositions s ++ [position tx]) s,
        Some (mkFinalize (position tx) (aggregate_transactions (position tx) s)
                (newMeteoraPosition (aggregate_transactions (position tx) s))
                AwaitAugment)))
  /\ (forall es s i j (p : Pos) s',
       run es constructor = Some s -> fire (AugmentResolved i j p) s = Some s' ->
       exists c r n children child,
         tasks s !! i = Some (AwaitAll c r n children)
         /\ children !! j = Some child
         /\ fstage child = AwaitAugment
         /\ output s' = output s ++ [SuperPush (Some (PositionAndTransactions (ftxs child) p))])
  /\ (forall es s,
       run es constructor = Some s ->
       total (fun m => ind (is_updating m)) (output s) = 0).
Proof.
  split_and!.
  - intros tx s Hc. unfold _createPosition, aggregate_transactions in *. simpl.
    by rewrite Hc.
  - intros es s i j p s' Hrun. unfold fire. simpl.
    destruct (_updateOpenPosition i j p s) as [[s1 fin]|] eqn:Hw; [|done].
    destruct (run_counts _ _ _ _ Inv_constructor Hrun) as [HI _].
    apply with_child_inv in Hw as (c & r & n & ch & child & sk & child' & r' &
                                   Hi & Hj & Hk & -> & ->).
    intros [= <-]. exists c, r, n, ch, child.
    destruct (fstage child) eqn:Hst; try done. injection Hk as <- <- <-.
    assert (unsettled child = true) as Hun by (unfold unsettled; by rewrite Hst).
    pose proof (pending_of_unsettled _ _ _ _ _ _ _ _ _ HI Hi Hj Hun) as Hne.
    by rewrite (push_pending _ _ Hne).
  - intros es s Hrun.
    by destruct (run_counts _ _ _ _ Inv_constructor Hrun) as [[_ _ _ _ Hu] _].
Qed.

Lemma finish_emits s :
  _cancelling s = false -> _cancelled s = false ->
  output (_finish s) = output s ++ (if finish_condition s then [SuperPush None] else []).
Proof.
  intros Hc1 Hc2. unfold _finish. destruct (finish_condition s).
  - by rewrite push_uncancelled.
  - by rewrite app_nil_r.
Qed.

Lemma tasks_notify_end c l s : tasks (notify_end c l s) = tasks s.
Proof. by destruct c. Qed.

Lemma processBatch_next_check i (out : list Tx) s s1 fin :
  _processBatch_next i out s = Some (s1, fin) ->
  fin = match tasks s1 !! i with Some (AwaitAll _ _ _ _) => false | _ => true end.
Proof.
  unfold _processBatch_next.
  destruct (tasks s !! i) as [[c started|c r n ch| |]|] eqn:Hi; try done.
  apply lookup_lt_Some in Hi.
  generalize (settle false <$> _processor s). intros proc'.
  destruct started as [b|]; simpl.
  - destruct (0 <? Z.of_nat (length b)).
    + destruct (0 <? length out)%nat.
      * match goal with |- context [start_finalizers out (push ?ch ?s2)] =>
          destruct (push_effect ch s2) as (o1 & c1 & -> & _) end.
        match goal with |- context [start_finalizers out ?s2] =>
          destruct (start_finalizers out s2) as [s3 children] eqn:Hsf end.
        apply start_finalizers_effect in Hsf as (o & p & -> & _).
        intros [= <- <-]. simpl. by rewrite list_lookup_insert_eq.
      * intros [= <- <-]. rewrite tasks_notify_end. simpl.
        by rewrite list_lookup_insert_eq.
    + intros [= <- <-]. rewrite tasks_notify_end. simpl.
      by rewrite list_lookup_insert_eq.
  - intros [= <- <-]. rewrite tasks_notify_end. simpl.
    by rewrite list_lookup_insert_eq.
Qed.

Lemma handle_check e s s1 fin :
  handle e s = Some (s1, fin) -> fin = checks_completion e s1.
Proof.
  destruct e; simpl.
  - case_match; [done|]. by intros [= <- <-].
  - case_match; [|done]. destruct d as [n| |b]; simpl; try by intros [= <- <-].
    destruct (_processBatch FromData _); simpl; [|done]. by intros [= <- <-].
  - case_match; [|done]. case_match; try done. unfold on_end, end_loop.
    case_match; [|done]. case_match; [by intros [= <- <-]|].
    destruct (_processBatch FromEnd _); simpl; [|done]. by intros [= <- <-].
  - case_match; [|done]. by intros [= <- <-].
  - destruct (cancel s); by intros [= <- <-].
  - apply processBatch_next_check.
  - unfold _processBatch_throw. repeat case_match; try done. by intros [= <- <-].
  - by intros (? & ? & ? & ? & ? & ? & ? & ? & _ & _ & _ & _ & ->)%with_child_inv.
  - by intros (? & ? & ? & ? & ? & ? & ? & ? & _ & _ & _ & _ & ->)%with_child_inv.
  - by intros (? & ? & ? & ? & ? & ? & ? & ? & _ & _ & _ & _ & ->)%with_child_inv.
  - unfold _processBatch_all. repeat case_match; try done. by intros [= <- <-].
  - case_match; try done. unfold end_loop.
    case_match; [|done]. case_match; [by intros [= <- <-]|].
    destruct (_processBatch FromEnd _); simpl; [|done]. by intros [= <- <-].
Qed.

(** A rejected classification emits nothing at all, in any state. *)
Lemma rejection_emits_nothing i busy s s' :
  fire (NextRejected i busy) s = Some s' -> output s' = output s.
Proof.
  unfold fire. simpl. unfold _processBatch_throw.
  destruct (tasks s !! i) as [[c [b|]|c r n ch| |]|]; try done.
  intros [= <-]. by destruct c.
Qed.

(** After [cancel] was recorded, a call of [_processBatch] takes no batch
    from the queue and suspends nowhere. *)
Lemma no_drain_after_cancel c s s' :
  _cancelling s = true -> _processBatch c s = Some s' ->
  _processor s' = _processor s /\ tasks s' = tasks s.
Proof.
  intros Hc. unfold _processBatch. rewrite Hc. simpl.
  intros [= <-]. by destruct c.
Qed.

(** *** How executions evolve *)

Lemma evolves_refl s : evolves [] 0 s s.
Proof.
  split; try done; try lia; try (by auto).
  - exists []. rewrite app_nil_r. split_and!; try done; [constructor | auto].
  - exists []. by rewrite app_nil_r.
Qed.

Lemma log_length_prefix s s' :
  _transactions s `prefix_of` _transactions s' -> log_length s <= log_length s'.
Proof. intros H%prefix_length. unfold log_length. lia. Qed.

Lemma evolves_trans sig1 sig2 n1 n2 s1 s2 s3 :
  evolves sig1 n1 s1 s2 -> evolves sig2 n2 s2 s3 ->
  evolves (sig1 ++ sig2) (n1 + n2) s1 s3.
Proof.
  intros [A1 A2 A3 A4 A5 A6 A7 A8 A9 A10 A11 A12 A13 A14 A15]
         [B1 B2 B3 B4 B5 B6 B7 B8 B9 B10 B11 B12 B13 B14 B15].
  assert (_cancelling s3 = false -> _cancelling s2 = false) as Hc.
  { destruct (_cancelling s2); [|done]. intros. by rewrite B4 in *. }
  split.
  - by etrans.
  - by etrans.
  - auto.
  - auto.
  - auto.
  - intros H3. destruct (B6 H3) as [H2|]; [|by right].
    destruct (A6 H2) as [|H]; [by left|right; auto].
  - auto.
  - lia.
  - lia.
  - intros H3 H1. destruct (A10 (Hc H3) H1) as [H2 E2].
    destruct (B10 H3 H2) as [H4 E4]. split; [done | lia].
  - lia.
  - destruct A12 as (l1 & E1 & S1 & F1 & L1), B12 as (l2 & E2 & S2 & F2 & L2).
    pose proof (log_length_prefix _ _ A1). pose proof (log_length_prefix _ _ B1).
    exists (l1 ++ l2). split_and!.
    + by rewrite E2, E1, app_assoc.
    + apply StronglySorted_app_2; [|done..]. intros x1 x2 H1 H2.
      rewrite Forall_forall in F1, F2. specialize (F1 _ H1). specialize (F2 _ H2). lia.
    + apply Forall_app. split; eapply Forall_impl; eauto; simpl; intros; lia.
    + intros H3 H1. destruct (A10 (Hc H3) H1) as [H2 _].
      destruct (L1 (Hc H3) H1) as [[-> E]|E], (L2 H3 H2) as [[-> E']|E'].
      * left. split; [done | lia].
      * by right.
      * right. rewrite app_nil_r. by rewrite E, E'.
      * right. rewrite last_app. by rewrite E'.
  - destruct A13 as (l1 & E1 & S1 & L1), B13 as (l2 & E2 & S2 & L2).
    exists (l1 ++ l2). split_and!.
    + by rewrite E2, E1, app_assoc.
    + by apply sublist_app.
    + intros H3 H1. destruct (A10 (Hc H3) H1) as [H2 _].
      by rewrite (L1 (Hc H3) H1), (L2 H3 H2).
  - intros H1 Hl. destruct (A14 H1 Hl) as (T1 & Q1 & L1).
    destruct (B14 (A4 H1) (A7 Hl)) as (T2 & Q2 & L2). split_and!.
    + congruence.
    + by etrans.
    + intros Hq He. apply L2; [|by apply L1].
      destruct Q1 as [k ->]. by destruct (queue_of s1).
  - auto.
Qed.

Lemma evolves_then sig n s1 s2 s3 :
  evolves [] 0 s1 s2 -> evolves sig n s2 s3 -> evolves sig n s1 s3.
Proof. intros H1 H2. exact (evolves_trans [] sig 0 n _ _ _ H1 H2). Qed.

Lemma evolves_before sig n s1 s2 s3 :
  evolves sig n s1 s2 -> evolves [] 0 s2 s3 -> evolves sig n s1 s3.
Proof.
  intros H1 H2. pose proof (evolves_trans sig [] n 0 _ _ _ H1 H2) as H.
  by rewrite app_nil_r, Z.add_0_r in H.
Qed.

(** A segment that pushes nothing and leaves the log and the flags alone. *)
Lemma evolves_quietly s s' :
  output s' = output s -> _transactions s' = _transactions s ->
  _done s' = _done s -> _cancelled s' = _cancelled s ->
  (_cancelling s = true -> _cancelling s' = true) ->
  (listening s = true -> listening s' = true) ->
  (_cancelling s = true -> listening s = true ->
   length (tasks s') = length (tasks s)
   /\ queue_of s `prefix_of` queue_of s'
   /\ (queue_of s <> [] -> endLoop s <> EndExited -> endLoop s' <> EndExited)) ->
  (forall i j, rejected_at i j s -> rejected_at i j s') ->
  evolves [] 0 s s'.
Proof.
  intros E1 E2 E3 E4 E5 E6 E7 E8. unfold ends, errors, log_length.
  split; try done; unfold ends, errors, log_length; rewrite ?E1, ?E2, ?E3, ?E4;
    try done; try lia; try (by auto).
  - exists []. rewrite app_nil_r. split_and!; try done; [constructor | auto].
  - exists []. by rewrite app_nil_r.
Qed.

Lemma tx_counts_app (o1 o2 : list (@Emitted Tx Pos)) :
  tx_counts (o1 ++ o2) = tx_counts o1 ++ tx_counts o2.
Proof. apply omap_app. Qed.

Lemma signals_app (o1 o2 : list (@Emitted Tx Pos)) :
  signals (o1 ++ o2) = signals o1 ++ signals o2.
Proof. apply omap_app. Qed.

Lemma errors_super_push chunk s : errors (super_push chunk s) = errors s.
Proof.
  unfold errors. change (output (super_push chunk s)) with (output s ++ [SuperPush chunk]).
  rewrite total_app, total_singleton. simpl. lia.
Qed.

(** A chunk that reaches [super.push]. *)
Lemma evolves_super_push (x : @MeteoraPositionStreamData Tx Pos) s :
  count_of (SuperPush (Some x)) = None ->
  evolves (signals [SuperPush (Some x)]) 0 s (super_push (Some x) s).
Proof.
  intros Hx. split; try done; try (by auto).
  - by exists [SuperPush (Some x)].
  - rewrite ends_super_push. simpl. lia.
  - rewrite ends_super_push. simpl. lia.
  - intros _ H. split; [exact H|]. rewrite ends_super_push. simpl. lia.
  - rewrite errors_super_push. lia.
  - exists []. change (output (super_push (Some x) s)) with (output s ++ [SuperPush (Some x)]).
    rewrite tx_counts_app.
    change (tx_counts [SuperPush (Some x)])
      with (match count_of (SuperPush (Some x)) with Some y => [y] | None => [] end).
    rewrite Hx. split_and!; try done; [constructor | auto].
  - exists (signals [SuperPush (Some x)]).
    change (output (super_push (Some x) s)) with (output s ++ [SuperPush (Some x)]).
    by rewrite signals_app.
Qed.

(** A chunk dropped by a finalized cancellation. *)
Lemma evolves_dropped sig s : _cancelled s = true -> evolves sig 0 s s.
Proof.
  intros Hc. split; try done; try lia; try (by auto); try (intros; congruence).
  all: exists []; rewrite app_nil_r; split_and!; try done; try constructor;
    try apply sublist_nil_l; intros; congruence.
Qed.

(** A chunk replaced by the terminal signal of a cancellation. *)
Lemma evolves_replaced sig s :
  _cancelling s = true -> _cancelled s = false ->
  evolves sig 0 s (super_push None (set_cancelled true s)).
Proof.
  intros Hc1 Hc2. split.
  - done.
  - by exists [SuperPush None].
  - done.
  - done.
  - done.
  - by right.
  - done.
  - rewrite ends_super_push. simpl. unfold ends. simpl. rewrite Hc2. simpl. lia.
  - rewrite ends_super_push. simpl. unfold ends. simpl. rewrite Hc2. simpl. lia.
  - simpl. congruence.
  - rewrite errors_super_push. unfold errors. simpl. lia.
  - exists [].
    change (output (super_push None (set_cancelled true s))) with (output s ++ [SuperPush None]).
    rewrite tx_counts_app. simpl. split_and!; try done; [constructor | simpl; congruence].
  - exists [].
    change (output (super_push None (set_cancelled true s))) with (output s ++ [SuperPush None]).
    rewrite signals_app. simpl.
    split_and!; [done | apply sublist_nil_l | simpl; congruence].
  - done.
  - done.
Qed.

Lemma evolves_push (x : @MeteoraPositionStreamData Tx Pos) s :
  count_of (SuperPush (Some x)) = None ->
  evolves (signals [SuperPush (Some x)]) 0 s (push (Some x) s).
Proof.
  intros Hx. unfold push. case_match; [by apply evolves_super_push|].
  destruct (_cancelling s) eqn:Hc1, (_cancelled s) eqn:Hc2; simpl.
  - by apply evolves_dropped.
  - by apply evolves_replaced.
  - by apply evolves_dropped.
  - by apply evolves_super_push.
Qed.

(** *** The pending list as an array *)

Lemma indexOf_Some (key : string) (l : list string) (i : nat) :
  indexOf key l = Some i -> l !! i = Some key.
Proof.
  revert i. induction l as [|x l IH]; intros i; simpl; [done|].
  case_bool_decide; [intros; by simplify_eq|].
  destruct (indexOf key l) as [i'|]; simpl; intros; simplify_eq. by apply IH.
Qed.

Lemma indexOf_None (key : string) (l : list string) :
  indexOf key l = None -> key ∉ l.
Proof.
  induction l as [|x l IH]; simpl; [intros; apply not_elem_of_nil|].
  case_bool_decide; [done|].
  destruct (indexOf key l) as [i'|]; simpl; [done|]. intros _.
  apply not_elem_of_cons. split; [congruence | by apply IH].
Qed.

(** Splicing out a key that is in the list removes one occurrence of it. *)
Lemma splice_indexOf_Permutation (key : string) (l : list string) :
  key ∈ l -> l ≡ₚ key :: splice_indexOf key l.
Proof.
  intros Hin. unfold splice_indexOf. destruct (indexOf key l) as [i|] eqn:Hi.
  - apply delete_Permutation. by apply indexOf_Some.
  - by apply indexOf_None in Hi.
Qed.

Lemma splice_indexOf_snoc (key : string) (l : list string) :
  splice_indexOf key (l ++ [key]) ≡ₚ l.
Proof.
  apply (Permutation_cons_inv (a := key)).
  rewrite <- splice_indexOf_Permutation; [|apply elem_of_app; right; by left].
  by rewrite Permutation_app_comm.
Qed.

(** *** The finalize steps of one batch *)

Lemma createPosition_batch (tx : Tx) s :
  exists p,
    _createPosition tx s
    = (set_output (output s ++ (if closes s tx then [record_of s tx] else []))
         (set_pendingPositions p s),
       if closes s tx then None else Some (step_of s tx))
    /\ p ≡ₚ _pendingPositions s ++ (if closes s tx then [] else [position tx]).
Proof.
  unfold _createPosition, closes, record_of, step_of, aggregate_transactions.
  simpl. case_match eqn:Hclosed.
  - rewrite push_pending; [|simpl; by destruct (_pendingPositions s)].
    eexists. split; [destruct s; reflexivity|]. simpl.
    rewrite app_nil_r. apply splice_indexOf_snoc.
  - exists (_pendingPositions s ++ [position tx]). split; [|done].
    destruct s; simpl. unfold set_output, set_pendingPositions. simpl.
    by rewrite app_nil_r.
Qed.

Lemma start_finalizers_batch (out : list Tx) s :
  exists p,
    start_finalizers out s
    = (set_output
         (output s
          ++ (record_of s <$> filter (fun tx => open tx = true /\ closes s tx = true) out))
         (set_pendingPositions p s),
       step_of s <$> filter (fun tx => open tx = true /\ closes s tx = false) out)
    /\ p ≡ₚ _pendingPositions s
           ++ (position <$> filter (fun tx => open tx = true /\ closes s tx = false) out).
Proof.
  revert s. induction out as [|tx out IH]; intros s.
  - exists (_pendingPositions s). simpl. rewrite !app_nil_r. split; [|done].
    by destruct s.
  - simpl. rewrite !filter_cons. destruct (open tx) eqn:Hopen.
    + destruct (createPosition_batch tx s) as (p1 & -> & Hp1).
      match goal with |- context [start_finalizers out ?s1] =>
        destruct (IH s1) as (p2 & -> & Hp2) end.
      change (closes (set_output _ (set_pendingPositions p1 s))) with (closes s) in *.
      change (record_of (set_output _ (set_pendingPositions p1 s))) with (record_of s) in *.
      change (step_of (set_output _ (set_pendingPositions p1 s))) with (step_of s) in *.
      simpl in Hp2. exists p2. destruct (closes s tx) eqn:Hc.
      * rewrite decide_True by done. rewrite decide_False by (intros [_ ?]; congruence).
        split; [|by rewrite Hp2, Hp1, app_nil_r].
        destruct s; simpl. unfold set_output, set_pendingPositions. simpl.
        by rewrite <- app_assoc.
      * rewrite decide_False by (intros [_ ?]; congruence). rewrite decide_True by done.
        split; [|by rewrite Hp2, Hp1, <- app_assoc].
        destruct s; simpl. unfold set_output, set_pendingPositions. simpl.
        by rewrite app_nil_r.
    + destruct (IH s) as (p & -> & Hp). exists p.
      rewrite !decide_False by (intros [? _]; congruence). done.
Qed.

Lemma records_silent s (l : list Tx) :
  tx_counts (record_of s <$> l) = [] /\ signals (record_of s <$> l) = []
  /\ total (fun m => ind (is_end m)) (record_of s <$> l) = 0
  /\ total (fun m => ind (is_error m)) (record_of s <$> l) = 0.
Proof.
  induction l as [|tx l (H1 & H2 & H3 & H4)]; [done|].
  split_and!.
  - exact H1.
  - exact H2.
  - rewrite fmap_cons. change (total ?f (?x :: ?k)) with (f x + total f k).
    by rewrite H3.
  - rewrite fmap_cons. change (total ?f (?x :: ?k)) with (f x + total f k).
    by rewrite H4.
Qed.

Lemma evolves_start_finalizers (out : list Tx) s s' children :
  start_finalizers out s = (s', children) -> evolves [] 0 s s'.
Proof.
  destruct (start_finalizers_batch out s) as (p & -> & _). intros [= <- _].
  match goal with |- context [record_of s <$> ?l] =>
    destruct (records_silent s l) as (Hc & Hs & He & Hr); generalize dependent (record_of s <$> l)
  end.
  intros o Hc Hs He Hr. split.
  - done.
  - by exists o.
  - done.
  - done.
  - done.
  - by left.
  - done.
  - unfold ends. simpl. rewrite total_app. lia.
  - unfold ends. simpl. rewrite total_app. lia.
  - intros _ H. split; [exact H|]. unfold ends. simpl. rewrite total_app. lia.
  - unfold errors. simpl. rewrite total_app. lia.
  - exists []. simpl. rewrite tx_counts_app, Hc.
    split_and!; try done; [constructor | auto].
  - exists []. simpl. by rewrite signals_app, Hs.
  - done.
  - done.
Qed.

(** The running total pushed after a batch was appended to the log. *)
Lemma evolves_count (out : list Tx) s :
  out <> [] ->
  evolves [] 0 s
    (push (Some (TransactionCount (Z.of_nat (length (_transactions s ++ out)))))
       (set_transactions (_transactions s ++ out) s)).
Proof.
  intros Hout.
  assert (log_length s < Z.of_nat (length (_transactions s ++ out))) as Hlen.
  { unfold log_length. rewrite length_app. destruct out; [done|]. simpl. lia. }
  unfold push. simpl.
  destruct (0 <? length (_pendingPositions s))%nat eqn:Hp;
    [|destruct (_cancelling s) eqn:Hc1, (_cancelled s) eqn:Hc2; simpl].
  all: split;
    try (by exists out); try (by eexists); try done; try (by left); try (by right);
    try (intros; congruence);
    unfold ends, errors, log_length in *; simpl; rewrite ?total_app, ?Hc2; simpl;
    try lia.
  all: try (intros; congruence).
  all: try (intros _ H; split; [exact H|]; lia).
  all: try (exists []; rewrite ?app_nil_r, ?signals_app; simpl; rewrite ?app_nil_r;
            split_and!; [done | apply sublist_nil_l | done]).
  all: try (exists []; rewrite ?app_nil_r, ?tx_counts_app; simpl; rewrite ?app_nil_r;
            split_and!; [done | constructor | done | intros; congruence]).
  all: eexists [_]; rewrite tx_counts_app; simpl; split_and!;
      [done | repeat constructor | repeat constructor; lia | by right].
Qed.

(** The completion check. *)
Lemma evolves_finish s : evolves [] 0 s (_finish s).
Proof.
  unfold _finish. destruct (finish_condition s) eqn:Hfin; [|apply evolves_refl].
  assert (_done s = false) as Hd.
  { unfold finish_condition in Hfin. apply andb_prop in Hfin as [_ H].
    by apply negb_true_iff in H. }
  unfold push. simpl.
  destruct (0 <? length (_pendingPositions s))%nat eqn:Hp;
    [|destruct (_cancelling s) eqn:Hc1, (_cancelled s) eqn:Hc2; simpl].
  all: split;
    try (by eexists); try done; try (by left); try (by right);
    try (intros; congruence);
    unfold ends, errors, log_length in *; simpl; rewrite ?total_app, ?Hc2, ?Hd; simpl;
    try lia.
  all: try (intros; congruence).
  all: try (intros _ H; split; [exact H|]; lia).
  all: try (exists []; rewrite ?app_nil_r, ?signals_app; simpl; rewrite ?app_nil_r;
            split_and!; [done | apply sublist_nil_l | done]).
  all: exists []; rewrite ?app_nil_r, ?tx_counts_app; simpl; rewrite ?app_nil_r;
       split_and!; [done | constructor | done | by left].
Qed.

(** *** Every segment evolves the state *)

Lemma rejected_at_insert s s' i' (t : @BatchTask Raw Tx Pos) :
  tasks s' = <[i':=t]> (tasks s) ->
  (forall j, rejected_at i' j s ->
     exists c r n ch child,
       t = AwaitAll c r n ch /\ ch !! j = Some child /\ fstage child = Rejected) ->
  forall i j, rejected_at i j s -> rejected_at i j s'.
Proof.
  intros Ht Hkeep i j Hr. destruct (decide (i = i')) as [->|Hne].
  - destruct (Hkeep j Hr) as (c & r & n & ch & child & -> & Hj & Hst).
    destruct Hr as (c0 & r0 & n0 & ch0 & child0 & Hi & _).
    exists c, r, n, ch, child. split; [|done].
    rewrite Ht. apply list_lookup_insert_eq. by eapply lookup_lt_Some.
  - destruct Hr as (c & r & n & ch & child & Hi & Hj & Hst).
    exists c, r, n, ch, child. split; [|done].
    rewrite Ht. by rewrite list_lookup_insert_ne.
Qed.

(** A segment that only replaces one suspended call by its next stage. *)
Lemma evolves_retask s s' i (t : @BatchTask Raw Tx Pos) :
  output s' = output s -> _transactions s' = _transactions s ->
  _done s' = _done s -> _cancelled s' = _cancelled s ->
  _cancelling s' = _cancelling s -> listening s' = listening s ->
  tasks s' = <[i:=t]> (tasks s) -> queue_of s' = queue_of s ->
  (endLoop s <> EndExited -> endLoop s' <> EndExited) ->
  (forall j, rejected_at i j s ->
     exists c r n ch child,
       t = AwaitAll c r n ch /\ ch !! j = Some child /\ fstage child = Rejected) ->
  evolves [] 0 s s'.
Proof.
  intros E1 E2 E3 E4 E5 E6 E7 E8 E9 E10.
  apply evolves_quietly; try done; try congruence.
  - intros _ _. rewrite E7, E8, length_insert. auto.
  - by eapply rejected_at_insert.
Qed.

Lemma queue_of_settle busy s (p : option (AsyncBatchProcessor Raw)) :
  p = settle busy <$> _processor s ->
  match p with Some q => queue q | None => [] end = queue_of s.
Proof. intros ->. unfold queue_of. by destruct (_processor s). Qed.

Lemma evolves_notify_end c l s : l <> EndExited -> evolves [] 0 s (notify_end c l s).
Proof.
  intros Hl. destruct c; [apply evolves_refl|].
  apply evolves_quietly; try done; by intros _ _.
Qed.

Lemma evolves_processBatch c s s' : _processBatch c s = Some s' -> evolves [] 0 s s'.
Proof.
  unfold _processBatch. destruct (_cancelling s) eqn:Hc; simpl.
  - intros [= <-]. by apply evolves_notify_end.
  - destruct (_cancelled s); simpl; [intros [= <-]; by apply evolves_notify_end|].
    destruct (_processor s) as [p|]; [|done]. destruct (next p) as [p' started].
    intros [= <-]. apply evolves_quietly; try (by destruct c); try congruence.
    intros i j (c0 & r & n & ch & child & Hi & Hj & Hst).
    exists c0, r, n, ch, child. split; [|done].
    destruct c; simpl; apply lookup_app_l_Some; done.
Qed.

Lemma tasks_push chunk s : tasks (push chunk s) = tasks s.
Proof. by destruct (push_cases chunk s) as [-> | [-> | [_ ->]]]. Qed.

Lemma evolves_processBatch_next i (out : list Tx) s s1 fin :
  _processBatch_next i out s = Some (s1, fin) -> evolves [] 0 s s1.
Proof.
  unfold _processBatch_next.
  destruct (tasks s !! i) as [[c started|c r n ch| |]|] eqn:Hi; try done.
  assert (forall j, rejected_at i j s -> False) as Hno.
  { intros j (c0 & r & n & ch & child & Hi' & _). congruence. }
  pose proof (queue_of_settle false s _ eq_refl) as Hq. revert Hq.
  generalize (settle false <$> _processor s). intros proc' Hq.
  assert (forall s', output s' = output s -> _transactions s' = _transactions s ->
            _done s' = _done s -> _cancelled s' = _cancelled s ->
            _cancelling s' = _cancelling s -> listening s' = listening s ->
            tasks s' = <[i:=Returned]> (tasks s) -> queue_of s' = queue_of s ->
            endLoop s' = endLoop s ->
            evolves [] 0 s (notify_end c EndAwaitDelay s')) as Hret.
  { intros s' E1 E2 E3 E4 E5 E6 E7 E8 E9.
    apply (evolves_retask _ _ i Returned); try (by destruct c).
    - destruct c; simpl; congruence.
    - intros j Hj. by destruct (Hno j). }
  destruct started as [b|]; simpl.
  - destruct (0 <? Z.of_nat (length b)).
    + destruct (0 <? length out)%nat eqn:Hout.
      * assert (out <> []) as Hne by (by destruct out).
        pose proof (evolves_count out (set_processor proc' s) Hne) as Hcount.
        simpl in Hcount.
        match goal with |- context [start_finalizers out ?s2] =>
          assert (tasks s2 = tasks s) as Ht2 by (by rewrite tasks_push);
          assert (queue_of s2 = queue_of s) as Hq2
            by (destruct (push_effect
                            (Some (TransactionCount
                                     (Z.of_nat (length (_transactions s ++ out)))))
                            (set_transactions (_transactions s ++ out)
                               (set_processor proc' s))) as (o & c2 & -> & _);
                exact Hq);
          destruct (start_finalizers out s2) as [s3 children] eqn:Hsf;
          generalize dependent s2 end.
        intros s2 Hcount Ht2 Hq2 Hsf.
        pose proof (evolves_start_finalizers _ _ _ _ Hsf) as Hstart.
        destruct (start_finalizers_batch out s2) as (p & Hsf' & _).
        rewrite Hsf in Hsf'. injection Hsf' as -> _.
        intros [= <- <-].
        eapply evolves_then; [|eapply evolves_then; [exact Hcount|
                                 eapply evolves_then; [exact Hstart|]]].
        -- apply evolves_quietly; try done. intros _ _.
           assert (queue_of (set_processor proc' s) = queue_of s) as Hq0 by exact Hq.
           split_and!; [done | by rewrite Hq0 | done].
        -- apply (evolves_retask _ _ i (AwaitAll c false (Z.of_nat (length b)) children));
             try done.
           intros j (c0 & r & n & ch & child & Hi' & _). simpl in Hi'. congruence.
      * intros [= <- <-]. by apply Hret.
    + intros [= <- <-]. by apply Hret.
  - intros [= <- <-]. by apply Hret.
Qed.

Lemma evolves_processBatch_throw i busy s s1 fin :
  _processBatch_throw i busy s = Some (s1, fin) -> evolves [] 0 s s1.
Proof.
  unfold _processBatch_throw.
  destruct (tasks s !! i) as [[c [b|]|c r n ch| |]|] eqn:Hi; try done.
  pose proof (queue_of_settle busy s _ eq_refl) as Hq.
  intros [= <- <-]. apply (evolves_retask _ _ i Threw); try (by destruct c).
  intros j (c0 & r & n & ch & child & Hi' & _). congruence.
Qed.

Lemma all_settled_not_rejected (children : list (@Finalize Tx Pos)) j child :
  all_settled children = true -> children !! j = Some child -> fstage child <> Rejected.
Proof.
  unfold all_settled. rewrite forallb_forall. intros Hall Hj Hst.
  specialize (Hall child). rewrite Hst in Hall.
  assert (false = true) as [=]. apply Hall.
  apply list_elem_of_In, list_elem_of_lookup. eauto.
Qed.

Lemma evolves_processBatch_all i s s1 fin :
  _processBatch_all i s = Some (s1, fin) -> evolves [] 0 s s1.
Proof.
  unfold _processBatch_all.
  destruct (tasks s !! i) as [[c started|c [|] n ch| |]|] eqn:Hi; try done.
  destruct (all_settled ch) eqn:Hall; [|done].
  intros [= <- <-]. apply (evolves_retask _ _ i Returned); try (by destruct c).
  intros j (c0 & r & n0 & ch0 & child & Hi' & Hj & Hst). simplify_eq.
  by destruct (all_settled_not_rejected _ _ _ Hall Hj).
Qed.

Lemma evolves_with_child i j s k s1 fin sig :
  with_child i j s k = Some (s1, fin) ->
  (forall c r child sk child' r',
     k c r child = Some (sk, child', r') ->
     evolves sig 0 s sk /\ tasks sk = tasks s /\ fstage child <> Rejected) ->
  evolves sig 0 s s1.
Proof.
  intros (c & r & n & ch & child & sk & child' & r' & Hi & Hj & Hk & -> & ->)%with_child_inv Hev.
  destruct (Hev _ _ _ _ _ _ Hk) as (Hsk & Ht & Hst).
  eapply evolves_before; [exact Hsk|].
  apply (evolves_retask _ _ i (AwaitAll c r' n (<[j:=child']> ch))); try done.
  intros j' (c0 & r0 & n0 & ch0 & child0 & Hi' & Hj' & Hst0).
  rewrite Ht, Hi in Hi'. simplify_eq.
  destruct (decide (j' = j)) as [->|Hne]; [congruence|].
  exists c0, r', n0, (<[j:=child']> ch0), child0. split; [done|].
  by rewrite list_lookup_insert_ne.
Qed.

Lemma evolves_end_loop s s1 fin : end_loop s = Some (s1, fin) -> evolves [] 0 s s1.
Proof.
  unfold end_loop. destruct (_processor s) as [q|] eqn:Hp; [|done].
  destruct (isComplete q) eqn:Hq.
  - intros [= <- <-]. apply evolves_quietly; try done. intros _ _.
    split_and!; try done. intros Hne. exfalso. apply Hne.
    unfold queue_of. rewrite Hp. unfold isComplete in Hq.
    apply andb_prop in Hq as [Hq _]. by apply bool_decide_eq_true in Hq.
  - destruct (_processBatch FromEnd s) as [s'|] eqn:Hpb; [|done].
    intros [= <- <-]. by eapply evolves_processBatch.
Qed.

Lemma signals_forwarded (d : @ParsedTransactionStreamData Raw) (x : @MeteoraPositionStreamData Tx Pos) :
  forwarded d = Some x ->
  signals [SuperPush (Some x)] = [x] /\ count_of (SuperPush (Some x)) = None.
Proof. destruct d; intros [= <-]; done. Qed.

Lemma evolves_handle e s s1 fin :
  handle e s = Some (s1, fin) ->
  evolves (reported_signals [e]) (source_errors [e]) s s1.
Proof.
  destruct e; simpl.
  - destruct (listening s) eqn:Hl; [done|]. intros [= <- <-].
    apply evolves_quietly; try done. congruence.
  - destruct (listening s); [|done]. destruct d as [n| |b]; simpl.
    + intros [= <- <-].
      eapply evolves_then; [|exact (evolves_push (DSignatureCount n) _ eq_refl)].
      by apply evolves_quietly.
    + intros [= <- <-].
      eapply evolves_then; [|exact (evolves_push DAllSignaturesFound _ eq_refl)].
      by apply evolves_quietly.
    + destruct (_processBatch FromData _) as [s'|] eqn:Hpb; [|done].
      intros [= <- <-]. eapply evolves_then; [|by eapply evolves_processBatch].
      apply evolves_quietly; try done. intros _ _. split_and!; try done.
      unfold queue_of. simpl. destruct (_processor s); simpl; [|done].
      by apply prefix_app_r.
  - destruct (listening s); [|done]. destruct (endLoop s); try done.
    unfold on_end. intros H. eapply evolves_then; [|by eapply evolves_end_loop].
    by apply evolves_quietly.
  - destruct (listening s); [|done]. intros [= <- <-]. unfold on_error. split.
    + done.
    + by eexists.
    + done.
    + done.
    + done.
    + by left.
    + done.
    + unfold ends. simpl. rewrite total_app. simpl. lia.
    + unfold ends. simpl. rewrite total_app. simpl. lia.
    + intros _ H. split; [exact H|]. unfold ends. simpl. rewrite total_app. simpl. lia.
    + unfold errors. simpl. rewrite total_app. simpl. lia.
    + exists []. simpl. rewrite tx_counts_app. simpl.
      split_and!; try done; [constructor | auto].
    + exists []. simpl. by rewrite signals_app.
    + done.
    + done.
  - unfold cancel. destruct (_transactionStream s) as [src|] eqn:Hsrc.
    + intros [= <- <-]. apply evolves_quietly; try done; try (by intros _ _).
    + intros [= <- <-]. apply evolves_refl.
  - apply evolves_processBatch_next.
  - apply evolves_processBatch_throw.
  - intros Hw. eapply evolves_with_child; [done|]. simpl. intros c r child sk child' r'.
    destruct (fstage child) eqn:Hst; try done. intros [= <- <- <-].
    split_and!; [|apply tasks_push|done].
    exact (evolves_push (PositionAndTransactions (ftxs child) p) s eq_refl).
  - intros Hw. eapply evolves_with_child; [done|]. simpl. intros c r child sk child' r'.
    destruct (fstage child) eqn:Hst; try done. intros [= <- <- <-].
    split_and!; [|by destruct r, c|done].
    destruct r; [apply evolves_refl | by apply evolves_notify_end].
  - intros Hw. eapply evolves_with_child; [done|]. simpl. intros c r child sk child' r'.
    destruct (fstage child) eqn:Hst; try done. intros [= <- <- <-].
    split_and!; [by apply evolves_quietly | done | done].
  - apply evolves_processBatch_all.
  - destruct (endLoop s); try done. apply evolves_end_loop.
Qed.

Lemma evolves_fire e s s' :
  fire e s = Some s' -> evolves (reported_signals [e]) (source_errors [e]) s s'.
Proof.
  unfold fire. destruct (handle e s) as [[s1 [|]]|] eqn:Hh; [| |done].
  - intros [= <-].
    eapply evolves_before; [exact (evolves_handle _ _ _ _ Hh) | apply evolves_finish].
  - intros [= <-]. exact (evolves_handle _ _ _ _ Hh).
Qed.

Lemma evolves_run es s s' :
  run es s = Some s' -> evolves (reported_signals es) (source_errors es) s s'.
Proof.
  revert s. induction es as [|e es IH]; intros s Hrun; simpl in Hrun.
  - injection Hrun as <-. apply evolves_refl.
  - destruct (fire e s) as [s1|] eqn:Hf; [|done].
    pose proof (evolves_trans _ _ _ _ _ _ _ (evolves_fire _ _ _ Hf) (IH _ Hrun)) as H.
    assert (reported_signals (e :: es) = reported_signals [e] ++ reported_signals es)
      as -> by apply (omap_app _ [e] es).
    assert (source_errors (e :: es) = source_errors [e] + source_errors es) as ->
      by (unfold source_errors; simpl; lia).
    exact H.
Qed.


(** *** What executions never undo *)

(** X1.  Along any execution the transaction log and the sequence of pushed
    chunks only grow at their end, and none of the flags [_done],
    [_cancelling], [_cancelled] is ever reset, nor is the source
    unassigned again. *)
Theorem state_only_grows es s s' :
  run es s = Some s' ->
  _transactions s `prefix_of` _transactions s'
  /\ output s `prefix_of` output s'
  /\ (_done s = true -> _done s' = true)
  /\ (_cancelling s = true -> _cancelling s' = true)
  /\ (_cancelled s = true -> _cancelled s' = true)
  /\ (listening s = true -> listening s' = true).
Proof. intros [H1 H2 H3 H4 H5 _ H7 _ _ _ _ _ _ _ _]%evolves_run. by split_and!. Qed.

(** X2.  The terminal signal is pushed at most once by the completion check
    and at most once by a cancellation, and a finalized cancellation has
    pushed it: the number of pushes of [null] lies between [_cancelled] and
    [_cancelled + _done].  A cancellation is only finalized after it was
    requested, and as long as none was requested [null] has been pushed
    exactly once if [_done] is set and not at all otherwise. *)
Theorem terminal_signal_accounting es s :
  run es constructor = Some s ->
  ind (_cancelled s) <= ends s <= ind (_cancelled s) + ind (_done s)
  /\ (_cancelled s = true -> _cancelling s = true)
  /\ (_cancelling s = false -> ends s = ind (_done s)).
Proof.
  intros [_ _ _ _ _ H6 _ H8 H9 H10 _ _ _ _ _]%evolves_run.
  change (ends (@constructor Raw Tx Pos)) with 0 in *. simpl in *. split_and!.
  - lia.
  - lia.
  - intros Hc. by destruct (H6 Hc).
  - intros Hc. destruct (H10 Hc eq_refl). lia.
Qed.

(** X3.  The values of the pushed [transactionCount] chunks are strictly
    increasing, positive and never above the length of the log; as long as
    no cancellation was requested the last one pushed is the length of the
    log (and none was pushed while the log is empty). *)
Theorem transaction_counts_increase es s :
  run es constructor = Some s ->
  StronglySorted Z.lt (tx_counts (output s))
  /\ Forall (fun n => 0 < n <= log_length s) (tx_counts (output s))
  /\ (_cancelling s = false ->
      (tx_counts (output s) = [] /\ _transactions s = [])
      \/ last (tx_counts (output s)) = Some (log_length s)).
Proof.
  intros [_ _ _ _ _ _ _ _ _ _ _ (l & E & S & F & L) _ _ _]%evolves_run.
  simpl in E. rewrite E. split_and!; [done | done |].
  intros Hc. destruct (L Hc eq_refl) as [[-> Hlen]|]; [left|by right].
  split; [done|]. unfold log_length in Hlen. simpl in Hlen.
  by destruct (_transactions s).
Qed.

(** X4.  The progress signals among the pushed chunks are a subsequence of
    the progress signals the source delivered, in the same order and
    unchanged; as long as no cancellation was requested they are all of
    them. *)
Theorem progress_signals_forwarded es s :
  run es constructor = Some s ->
  signals (output s) `sublist_of` reported_signals es
  /\ (_cancelling s = false -> signals (output s) = reported_signals es).
Proof.
  intros [_ _ _ _ _ _ _ _ _ _ _ _ (l & E & S & L) _ _]%evolves_run.
  simpl in E. rewrite E. split; [done|]. intros Hc. by apply L.
Qed.

(** X7.  The finalize steps of one batch: the transactions without [open]
    flag start nothing; every open-flagged one whose position is closed
    in the log (which already holds the whole batch) has its record pushed
    at once, in batch order, and leaves the pending list as it was; every
    other one registers its key and starts an augmentation. *)
Theorem batch_finalization (out : list Tx) s :
  exists p,
    start_finalizers out s
    = (set_output
         (output s
          ++ (record_of s <$> filter (fun tx => open tx = true /\ closes s tx = true) out))
         (set_pendingPositions p s),
       step_of s <$> filter (fun tx => open tx = true /\ closes s tx = false) out)
    /\ p ≡ₚ _pendingPositions s
           ++ (position <$> filter (fun tx => open tx = true /\ closes s tx = false) out).
Proof. apply start_finalizers_batch. Qed.


(** *** Flushing while positions are pending *)

Lemma processBatch_flags c s s' :
  _processBatch c s = Some s' ->
  _cancelled s' = _cancelled s /\ _pendingPositions s' = _pendingPositions s.
Proof.
  unfold _processBatch. case_match; [|intros [= <-]; by destruct c].
  destruct (_processor s) as [p|]; [|done]. destruct (next p) as [p' started].
  intros [= <-]. by destruct c.
Qed.

Lemma end_loop_flags s s1 fin :
  end_loop s = Some (s1, fin) ->
  _cancelled s1 = _cancelled s /\ fin = false.
Proof.
  unfold end_loop. destruct (_processor s) as [q|]; [|done].
  destruct (isComplete q); [by intros [= <- <-]|].
  destruct (_processBatch FromEnd s) as [s'|] eqn:Hpb; [|done].
  intros [= <- <-]. split; [|done]. by eapply processBatch_flags.
Qed.

Lemma handle_flush e s s1 fin :
  _pendingPositions s <> [] -> handle e s = Some (s1, fin) ->
  _cancelled s1 = _cancelled s /\ (fin = true -> _pendingPositions s1 = _pendingPositions s).
Proof.
  intros Hp. destruct e; simpl.
  - destruct (listening s); [done|]. by intros [= <- <-].
  - destruct (listening s); [|done]. destruct d as [n| |b]; simpl.
    + rewrite push_pending by done. by intros [= <- <-].
    + rewrite push_pending by done. by intros [= <- <-].
    + destruct (_processBatch FromData _) as [s'|] eqn:Hpb; [|done].
      intros [= <- <-]. destruct (processBatch_flags _ _ _ Hpb) as [Hc _].
      split; [exact Hc | discriminate].
  - destruct (listening s); [|done]. destruct (endLoop s); try done.
    unfold on_end. intros [Hc ->]%end_loop_flags. split; [exact Hc | discriminate].
  - destruct (listening s); [|done]. by intros [= <- <-].
  - unfold cancel. destruct (_transactionStream s); by intros [= <- <-].
  - unfold _processBatch_next.
    destruct (tasks s !! i) as [[c started|c r n ch| |]|] eqn:Hi; try done.
    generalize (settle false <$> _processor s). intros proc'.
    destruct started as [b|]; simpl.
    + destruct (0 <? Z.of_nat (length b)).
      * destruct (0 <? length out)%nat.
        -- rewrite push_pending by done.
           match goal with |- context [start_finalizers out ?s2] =>
             destruct (start_finalizers_batch out s2) as (p & -> & _) end.
           by intros [= <- <-].
        -- intros [= <- <-]. by destruct c.
      * intros [= <- <-]. by destruct c.
    + intros [= <- <-]. by destruct c.
  - unfold _processBatch_throw.
    destruct (tasks s !! i) as [[c [b|]|c r n ch| |]|] eqn:Hi; try done.
    intros [= <- <-]. by destruct c.
  - intros (c & r & n & ch & child & sk & child' & r' & Hi & Hj & Hk & -> & ->)%with_child_inv.
    destruct (fstage child); try done. injection Hk as <- <- <-.
    by rewrite push_pending.
  - intros (c & r & n & ch & child & sk & child' & r' & Hi & Hj & Hk & -> & ->)%with_child_inv.
    destruct (fstage child); try done. injection Hk as <- <- <-. by destruct r, c.
  - intros (c & r & n & ch & child & sk & child' & r' & Hi & Hj & Hk & -> & ->)%with_child_inv.
    destruct (fstage child); try done. by injection Hk as <- <- <-.
  - unfold _processBatch_all.
    destruct (tasks s !! i) as [[c started|c [|] n ch| |]|] eqn:Hi; try done.
    destruct (all_settled ch); [|done]. intros [= <- <-]. by destruct c.
  - destruct (endLoop s); try done. intros [Hc ->]%end_loop_flags.
    split; [exact Hc | discriminate].
Qed.

Lemma finish_pending s :
  _pendingPositions s <> [] ->
  _cancelled (_finish s) = _cancelled s
  /\ output (_finish s) = output s ++ (if finish_condition s then [SuperPush None] else []).
Proof.
  intros Hp. unfold _finish. destruct (finish_condition s).
  - by rewrite push_pending.
  - by rewrite app_nil_r.
Qed.

Lemma fire_flush e s s' :
  _pendingPositions s <> [] -> fire e s = Some s' -> _cancelled s' = _cancelled s.
Proof.
  intros Hp. unfold fire. destruct (handle e s) as [[s1 fin]|] eqn:Hh; [|done].
  destruct (handle_flush _ _ _ _ Hp Hh) as [Hc Hfin].
  destruct fin; intros [= <-]; [|done].
  rewrite <- Hc. apply finish_pending. by rewrite Hfin.
Qed.

(** X9.  While the pending list is not empty no event finalizes a
    cancellation: whatever is pushed passes the gate by rule 1, and
    [_cancelled] stays as it is, even if [cancel] was requested. *)
Theorem pending_positions_flush e s s' :
  _pendingPositions s <> [] -> fire e s = Some s' -> _cancelled s' = _cancelled s.
Proof. apply fire_flush. Qed.

Lemma rejected_at_pending s d i j :
  Inv s d -> rejected_at i j s -> _pendingPositions s <> [].
Proof.
  intros HI (c & r & n & ch & child & Hi & Hj & Hst).
  eapply pending_of_unsettled; eauto. unfold unsettled. by rewrite Hst.
Qed.

(** X10.  A rejected augmentation is never cleaned up: the finalize step
    stays rejected and its key stays in the pending list for the rest of
    the execution.  From then on every chunk passes the gate by rule 1 and
    a cancellation, requested before or after, is never finalized. *)
Theorem rejected_augmentation_blocks_the_gate es es' s s' i j :
  run es constructor = Some s -> rejected_at i j s -> run es' s = Some s' ->
  rejected_at i j s'
  /\ _pendingPositions s' <> []
  /\ _cancelled s' = _cancelled s
  /\ (forall chunk, push chunk s' = super_push chunk s').
Proof.
  intros Hrun Hr Hrun'.
  destruct (run_counts _ _ _ _ Inv_constructor Hrun) as [HI _]. clear Hrun.
  revert HI. generalize (0 + delivered_total es). clear es.
  revert s Hr Hrun'. induction es' as [|e es' IH]; intros s Hr Hrun' d HI; simpl in Hrun'.
  - injection Hrun' as <-.
    pose proof (rejected_at_pending _ _ _ _ HI Hr) as Hp.
    split_and!; try done. intros chunk. by apply push_pending.
  - destruct (fire e s) as [s1|] eqn:Hf; [|done].
    pose proof (rejected_at_pending _ _ _ _ HI Hr) as Hp.
    pose proof (fire_flush _ _ _ Hp Hf) as Hc.
    pose proof (Inv_fire _ _ _ _ HI Hf) as HI1.
    apply evolves_fire in Hf as [_ _ _ _ _ _ _ _ _ _ _ _ _ _ Hrej].
    destruct (IH _ (Hrej _ _ Hr) Hrun' _ HI1) as (H1 & H2 & H3 & H4).
    split_and!; try done. congruence.
Qed.

(** *** The keys in the pending list *)

Lemma concat_fmap_insert {A B : Type} (f : A -> list B) (l : list A) i (t t' : A) :
  l !! i = Some t ->
  exists R, concat (f <$> l) ≡ₚ f t ++ R /\ concat (f <$> <[i:=t']> l) ≡ₚ f t' ++ R.
Proof.
  revert i. induction l as [|a l IH]; intros [|i] Hi; simplify_eq/=.
  - by exists (concat (f <$> l)).
  - destruct (IH i Hi) as (R & H1 & H2). exists (f a ++ R). split.
    + rewrite H1. by rewrite !app_assoc, (Permutation_app_comm (f a)).
    + rewrite H2. by rewrite !app_assoc, (Permutation_app_comm (f a)).
Qed.

Lemma keys_in_flight_concat (t : @BatchTask Raw Tx Pos) :
  keys_in_flight t
  = concat ((fun c => if unsettled c then [fkey c] else []) <$> children_of t).
Proof.
  unfold keys_in_flight. induction (children_of t) as [|c l IH]; [done|].
  rewrite filter_cons. destruct (decide (unsettled c = true)) as [Hc|Hc].
  - rewrite fmap_cons, IH. simpl. by rewrite Hc.
  - rewrite IH. simpl. by destruct (unsettled c).
Qed.

Lemma pending_keys_child s i c r n ch j (child child' : @Finalize Tx Pos) r' :
  tasks s !! i = Some (AwaitAll c r n ch) -> ch !! j = Some child ->
  exists R,
    pending_keys s ≡ₚ (if unsettled child then [fkey child] else []) ++ R
    /\ concat (keys_in_flight <$> <[i:=AwaitAll c r' n (<[j:=child']> ch)]> (tasks s))
       ≡ₚ (if unsettled child' then [fkey child'] else []) ++ R.
Proof.
  intros Hi Hj. unfold pending_keys.
  destruct (concat_fmap_insert keys_in_flight _ _ _
              (AwaitAll c r' n (<[j:=child']> ch)) Hi) as (R1 & H1 & H2).
  rewrite !keys_in_flight_concat in H1, H2. simpl in H1, H2.
  destruct (concat_fmap_insert (fun c => if unsettled c then [fkey c] else [])
              _ _ _ child' Hj) as (R2 & H3 & H4).
  exists (R2 ++ R1). split.
  - by rewrite H1, H3, app_assoc.
  - by rewrite H2, H4, app_assoc.
Qed.

Lemma pending_keys_retask s i (t t' : @BatchTask Raw Tx Pos) :
  tasks s !! i = Some t -> keys_in_flight t = [] ->
  concat (keys_in_flight <$> <[i:=t']> (tasks s)) ≡ₚ keys_in_flight t' ++ pending_keys s.
Proof.
  intros Hi Ht. unfold pending_keys.
  destruct (concat_fmap_insert keys_in_flight _ _ _ t' Hi) as (R & H1 & H2).
  rewrite Ht in H1. simpl in H1. by rewrite H2, H1.
Qed.

Lemma all_settled_keys c r n (ch : list (@Finalize Tx Pos)) :
  all_settled ch = true -> keys_in_flight (AwaitAll c r n ch : @BatchTask Raw Tx Pos) = [].
Proof.
  intros Hall. rewrite keys_in_flight_concat. simpl.
  unfold all_settled in *. induction ch as [|x l IH]; [done|].
  simpl in Hall. apply andb_prop in Hall as [Hx Hl].
  rewrite fmap_cons. cbn [concat]. rewrite (IH Hl).
  unfold unsettled. by destruct (fstage x).
Qed.

Lemma started_keys s (l : list Tx) c r n :
  keys_in_flight (AwaitAll c r n (step_of s <$> l) : @BatchTask Raw Tx Pos)
  = position <$> l.
Proof.
  rewrite keys_in_flight_concat. cbn [children_of].
  induction l as [|tx l IH]; [done|].
  rewrite !fmap_cons. cbn [concat]. by rewrite IH.
Qed.

Lemma pending_push chunk s : _pendingPositions (push chunk s) = _pendingPositions s.
Proof. by destruct (push_cases chunk s) as [-> | [-> | [_ ->]]]. Qed.

Lemma keys_processBatch c s s' :
  _processBatch c s = Some s' ->
  _pendingPositions s' = _pendingPositions s /\ pending_keys s' = pending_keys s.
Proof.
  unfold _processBatch. case_match; [|intros [= <-]; by destruct c].
  destruct (_processor s) as [p|]; [|done]. destruct (next p) as [p' started].
  intros [= <-]. split; [by destruct c|].
  unfold pending_keys. rewrite tasks_notify_end. simpl.
  rewrite fmap_app, concat_app. simpl. by rewrite app_nil_r.
Qed.

Lemma keys_end_loop s s1 fin :
  end_loop s = Some (s1, fin) ->
  _pendingPositions s1 = _pendingPositions s /\ pending_keys s1 = pending_keys s.
Proof.
  unfold end_loop. destruct (_processor s) as [q|]; [|done].
  destruct (isComplete q); [by intros [= <- <-]|].
  destruct (_processBatch FromEnd s) as [s'|] eqn:Hpb; [|done].
  intros [= <- <-]. by eapply keys_processBatch.
Qed.

Lemma keys_handle e s s1 fin :
  _pendingPositions s ≡ₚ pending_keys s -> handle e s = Some (s1, fin) ->
  _pendingPositions s1 ≡ₚ pending_keys s1.
Proof.
  intros HK. destruct e; simpl.
  - destruct (listening s); [done|]. by intros [= <- <-].
  - destruct (listening s); [|done]. destruct d as [n| |b]; simpl.
    + intros [= <- <-]. unfold pending_keys. by rewrite pending_push, tasks_push.
    + intros [= <- <-]. unfold pending_keys. by rewrite pending_push, tasks_push.
    + destruct (_processBatch FromData _) as [s'|] eqn:Hpb; [|done].
      intros [= <- <-]. destruct (keys_processBatch _ _ _ Hpb) as [-> ->]. done.
  - destruct (listening s); [|done]. destruct (endLoop s); try done.
    unfold on_end. intros [-> ->]%keys_end_loop. done.
  - destruct (listening s); [|done]. by intros [= <- <-].
  - unfold cancel. destruct (_transactionStream s); by intros [= <- <-].
  - unfold _processBatch_next.
    destruct (tasks s !! i) as [[c started|c r n ch| |]|] eqn:Hi; try done.
    generalize (settle false <$> _processor s). intros proc'.
    assert (forall s', _pendingPositions s' = _pendingPositions s ->
              tasks s' = <[i:=Returned]> (tasks s) ->
              _pendingPositions (notify_end c EndAwaitDelay s')
              ≡ₚ pending_keys (notify_end c EndAwaitDelay s')) as Hret.
    { intros s' E1 E2. unfold pending_keys at 1. rewrite tasks_notify_end, E2.
      rewrite (pending_keys_retask _ _ _ Returned Hi eq_refl). simpl.
      rewrite <- HK, <- E1. by destruct c. }
    destruct started as [b|]; simpl.
    + destruct (0 <? Z.of_nat (length b)).
      * destruct (0 <? length out)%nat.
        -- match goal with |- context [start_finalizers out ?s2] =>
             assert (tasks s2 = tasks s) as Ht2 by (by rewrite tasks_push);
             assert (_pendingPositions s2 = _pendingPositions s) as Hp2
               by (by rewrite pending_push);
             destruct (start_finalizers_batch out s2) as (pp & -> & Hp);
             generalize dependent s2 end.
           intros s2 Ht2 Hp2 Hp. intros [= <- <-]. simpl.
           unfold pending_keys. simpl. rewrite Ht2.
           rewrite (pending_keys_retask _ _ _ _ Hi eq_refl), started_keys.
           rewrite Hp, Hp2, HK. apply Permutation_app_comm.
        -- intros [= <- <-]. by apply Hret.
      * intros [= <- <-]. by apply Hret.
    + intros [= <- <-]. by apply Hret.
  - unfold _processBatch_throw.
    destruct (tasks s !! i) as [[c [b|]|c r n ch| |]|] eqn:Hi; try done.
    intros [= <- <-]. unfold pending_keys. rewrite tasks_notify_end. simpl.
    rewrite (pending_keys_retask _ _ _ Threw Hi eq_refl). simpl.
    rewrite <- HK. by destruct c.
  - intros (c & r & n & ch & child & sk & child' & r' & Hi & Hj & Hk & -> & ->)%with_child_inv.
    destruct (fstage child) eqn:Hst; try done. injection Hk as <- <- <-.
    unfold pending_keys. simpl. rewrite tasks_push, pending_push.
    destruct (pending_keys_child s i c r n ch j child
                (mkFinalize (fkey child) (ftxs child) p AwaitSplice) r Hi Hj)
      as (R & H1 & H2).
    rewrite H2, HK, H1. unfold unsettled. simpl. by rewrite Hst.
  - intros (c & r & n & ch & child & sk & child' & r' & Hi & Hj & Hk & -> & ->)%with_child_inv.
    destruct (fstage child) eqn:Hst; try done. injection Hk as <- <- <-.
    destruct (pending_keys_child s i c r n ch j child
                (mkFinalize (fkey child) (ftxs child) (fpos child) Rejected) true Hi Hj)
      as (R & H1 & H2).
    unfold pending_keys. simpl.
    assert (tasks (if r then s else notify_end c EndThrew s) = tasks s) as ->
      by (by destruct r, c).
    assert (_pendingPositions (if r then s else notify_end c EndThrew s)
            = _pendingPositions s) as -> by (by destruct r, c).
    rewrite H2, HK, H1. unfold unsettled. simpl. by rewrite Hst.
  - intros (c & r & n & ch & child & sk & child' & r' & Hi & Hj & Hk & -> & ->)%with_child_inv.
    destruct (fstage child) eqn:Hst; try done. injection Hk as <- <- <-.
    destruct (pending_keys_child s i c r n ch j child
                (mkFinalize (fkey child) (ftxs child) (fpos child) Settled) r Hi Hj)
      as (R & H1 & H2).
    unfold pending_keys. simpl. rewrite H2. unfold unsettled at 1. simpl.
    unfold unsettled in H1. rewrite Hst in H1. simpl in H1.
    apply (Permutation_cons_inv (a := fkey child)).
    rewrite <- splice_indexOf_Permutation; [by rewrite HK|].
    rewrite HK, H1. by left.
  - unfold _processBatch_all.
    destruct (tasks s !! i) as [[c started|c [|] n ch| |]|] eqn:Hi; try done.
    destruct (all_settled ch) eqn:Hall; [|done]. intros [= <- <-].
    unfold pending_keys. rewrite tasks_notify_end. simpl.
    rewrite (pending_keys_retask _ _ _ Returned Hi (all_settled_keys _ _ _ _ Hall)). simpl.
    rewrite <- HK. by destruct c.
  - destruct (endLoop s); try done. intros [-> ->]%keys_end_loop. done.
Qed.

Lemma keys_run es s s' :
  _pendingPositions s ≡ₚ pending_keys s -> run es s = Some s' ->
  _pendingPositions s' ≡ₚ pending_keys s'.
Proof.
  revert s. induction es as [|e es IH]; intros s HK; simpl; [by intros [= <-]|].
  destruct (fire e s) as [s1|] eqn:Hf; [|done]. apply IH.
  unfold fire in Hf. destruct (handle e s) as [[s2 fin]|] eqn:Hh; [|done].
  pose proof (keys_handle _ _ _ _ HK Hh) as HK2.
  destruct fin; injection Hf as <-; [|done].
  destruct (finish_fields s2) as (_ & _ & -> & _). unfold pending_keys, _finish.
  destruct (finish_condition s2); [|done]. by rewrite tasks_push.
Qed.

(** X11.  The pending list holds exactly the keys of the finalize steps
    that have registered and not yet spliced their key, each as often as
    steps for it are in flight.  So when a finalize step resumes to splice
    its key, [indexOf] finds it: the splice removes that key and never, by
    way of index -1, the last entry of another position. *)
Theorem pending_list_holds_keys_in_flight es s :
  run es constructor = Some s ->
  _pendingPositions s ≡ₚ pending_keys s
  /\ (forall i j s',
        fire (CreatePositionResumed i j) s = Some s' ->
        exists c r n ch child,
          tasks s !! i = Some (AwaitAll c r n ch) /\ ch !! j = Some child
          /\ is_Some (indexOf (fkey child) (_pendingPositions s))
          /\ _pendingPositions s ≡ₚ fkey child :: _pendingPositions s').
Proof.
  intros Hrun. assert (_pendingPositions s ≡ₚ pending_keys s) as HK.
  { by apply (keys_run es constructor). }
  split; [done|]. intros i j s'. unfold fire. simpl.
  destruct (_createPosition_resume i j s) as [[s1 fin]|] eqn:Hw; [|done].
  apply with_child_inv in Hw as (c & r & n & ch & child & sk & child' & r' &
                                 Hi & Hj & Hk & -> & ->).
  intros [= <-]. destruct (fstage child) eqn:Hst; try done. injection Hk as <- <- <-.
  exists c, r, n, ch, child.
  destruct (pending_keys_child s i c r n ch j child child r Hi Hj) as (R & H1 & _).
  unfold unsettled in H1. rewrite Hst in H1. simpl in H1.
  assert (fkey child ∈ _pendingPositions s) as Hin by (rewrite HK, H1; by left).
  split_and!; try done.
  - destruct (indexOf (fkey child) (_pendingPositions s)) eqn:Hidx; [done|].
    by apply indexOf_None in Hidx.
  - simpl. by apply splice_indexOf_Permutation.
Qed.

(** *** What a position record holds *)

Lemma aggregated_mono s s' b b' (txs : list Tx) :
  _transactions s `prefix_of` _transactions s' ->
  (_cancelling s = true -> _cancelling s' = true) ->
  b `prefix_of` b' ->
  aggregated s b txs -> aggregated s' b' txs.
Proof.
  intros Hlog Hc [k ->] (tx & log' & H1 & H2 & H3 & H4 & H5).
  exists tx, log'. split_and!; try done.
  - by etrans.
  - intros Hc'. rewrite tx_counts_app. apply elem_of_app. left. apply H5.
    destruct (_cancelling s); [by rewrite Hc in Hc'|done].
Qed.

Lemma children_txs_lookup s i t (txs : list Tx) :
  tasks s !! i = Some t -> txs ∈ (ftxs <$> children_of t) -> txs ∈ children_txs s.
Proof.
  intros Hi Hin. unfold children_txs.
  destruct (concat_fmap_insert (fun t => ftxs <$> children_of t) _ _ _ t Hi)
    as (R & H1 & _).
  rewrite H1. apply elem_of_app. by left.
Qed.

Lemma children_txs_insert s i (t t' : @BatchTask Raw Tx Pos) (txs : list Tx) :
  tasks s !! i = Some t ->
  txs ∈ concat ((fun t => ftxs <$> children_of t) <$> <[i:=t']> (tasks s)) ->
  txs ∈ (ftxs <$> children_of t') \/ txs ∈ children_txs s.
Proof.
  intros Hi. unfold children_txs.
  destruct (concat_fmap_insert (fun t => ftxs <$> children_of t) _ _ _ t' Hi)
    as (R & H1 & H2).
  rewrite H2, H1, !elem_of_app. tauto.
Qed.

Lemma no_record (new n1 : list (@Emitted Tx Pos)) txs pos n2 :
  Forall (fun m => is_position_event m = false) new ->
  new = n1 ++ SuperPush (Some (PositionAndTransactions txs pos)) :: n2 -> False.
Proof. intros HF ->. apply Forall_app in HF as [_ HF]. by inversion HF. Qed.

Lemma record_after_quiet (q recs n1 : list (@Emitted Tx Pos)) txs pos n2 :
  Forall (fun m => is_position_event m = false) q ->
  q ++ recs = n1 ++ SuperPush (Some (PositionAndTransactions txs pos)) :: n2 ->
  exists r1, n1 = q ++ r1
             /\ recs = r1 ++ SuperPush (Some (PositionAndTransactions txs pos)) :: n2.
Proof.
  intros HF [(k & E1 & E2)|(k & E1 & E2)]%app_eq_inv.
  - destruct k as [|m k].
    + exists []. simpl in E2. rewrite app_nil_r in *. by subst.
    + injection E2 as <- E2. by destruct (no_record _ _ _ _ _ HF E1).
  - by exists k.
Qed.

Lemma record_before_quiet (recs q n1 : list (@Emitted Tx Pos)) txs pos n2 :
  Forall (fun m => is_position_event m = false) q ->
  recs ++ q = n1 ++ SuperPush (Some (PositionAndTransactions txs pos)) :: n2 ->
  exists r2, recs = n1 ++ SuperPush (Some (PositionAndTransactions txs pos)) :: r2.
Proof.
  intros HF [(k & E1 & E2)|(k & E1 & E2)]%app_eq_inv.
  - destruct k as [|m k].
    + simpl in E2. symmetry in E2. by destruct (no_record _ [] _ _ _ HF E2).
    + injection E2 as <- E2. by exists k.
  - by destruct (no_record _ _ _ _ _ HF E2).
Qed.

Lemma records_step_refl s : records_step s s.
Proof.
  split_and!; try done. exists []. rewrite app_nil_r. split_and!; try done.
  - by intros [|??] ????.
  - auto.
Qed.

Lemma records_step_trans s1 s2 s3 :
  records_step s1 s2 -> records_step s2 s3 -> records_step s1 s3.
Proof.
  intros (L1 & C1 & new1 & O1 & R1 & K1) (L2 & C2 & new2 & O2 & R2 & K2).
  assert (forall b txs, output s2 `prefix_of` b ->
            txs ∈ children_txs s2 ->
            txs ∈ children_txs s1 \/ aggregated s3 b txs) as Hold.
  { intros b txs Hb [?|Ha]%K1; [by left|right].
    by apply (aggregated_mono s2 s3 (output s2) b). }
  assert (forall k, output s1 ++ new1 ++ k = output s2 ++ k) as E12.
  { intros k. by rewrite O1, <- app_assoc. }
  split_and!; [by etrans | auto |].
  exists (new1 ++ new2). split_and!.
  - by rewrite O2, E12.
  - intros n1 txs pos n2 [(k & E1 & E2)|(k & E1 & E2)]%app_eq_inv.
    + destruct k as [|m k].
      * simpl in E2. rewrite app_nil_r in E1. subst n1.
        assert (output s1 ++ new1 = output s2 ++ []) as -> by (by rewrite app_nil_r).
        destruct (R2 [] txs pos n2) as [Hc|Ha]; [done| |by right].
        apply Hold; [|done]. by rewrite app_nil_r.
      * injection E2 as <- E2.
        destruct (R1 n1 txs pos k E1) as [?|Ha]; [by left|right].
        by apply (aggregated_mono s2 s3 (output s1 ++ n1) (output s1 ++ n1)).
    + subst n1. rewrite E12.
      destruct (R2 k txs pos n2 E2) as [Hc|Ha]; [|by right].
      apply Hold; [|done]. by apply prefix_app_r.
  - intros txs [Hc|Ha]%K2; [|by right].
    apply Hold; [|done]. rewrite O2. by apply prefix_app_r.
Qed.

Lemma records_step_quiet s s1 new :
  _transactions s1 = _transactions s ->
  (_cancelling s = true -> _cancelling s1 = true) ->
  output s1 = output s ++ new ->
  Forall (fun m => is_position_event m = false) new ->
  (forall txs, txs ∈ children_txs s1 -> txs ∈ children_txs s) ->
  records_step s s1.
Proof.
  intros L C O Q K. split_and!; [by rewrite L | done |].
  exists new. split_and!; [done | | auto].
  intros n1 txs pos n2 E. by destruct (no_record _ _ _ _ _ Q E).
Qed.

Lemma push_records chunk s :
  (_cancelled s = true -> _cancelling s = true) ->
  exists new,
    output (push chunk s) = output s ++ new
    /\ (new = [] \/ new = [SuperPush chunk] \/ new = [SuperPush None])
    /\ (_cancelling s = false -> new = [SuperPush chunk])
    /\ _transactions (push chunk s) = _transactions s
    /\ _cancelling (push chunk s) = _cancelling s
    /\ tasks (push chunk s) = tasks s.
Proof.
  intros Hc. unfold push.
  destruct (0 <? length (_pendingPositions s))%nat.
  { exists [SuperPush chunk]. split_and!; auto. }
  destruct (_cancelling s) eqn:Hcg, (_cancelled s) eqn:Hcd; simpl.
  - exists []. rewrite app_nil_r. split_and!; auto. done.
  - exists [SuperPush None]. split_and!; auto. done.
  - by specialize (Hc eq_refl).
  - exists [SuperPush chunk]. split_and!; auto.
Qed.

Lemma records_step_push chunk s :
  is_position_event (SuperPush chunk) = false -> records_step s (push chunk s).
Proof.
  intros Hq. destruct (push_effect chunk s) as (o & c & E & Ho). rewrite E.
  apply (records_step_quiet _ _ o); try done.
  destruct Ho as [-> | [-> | [-> _]]]; repeat constructor; done.
Qed.

Lemma records_step_finish s : records_step s (_finish s).
Proof.
  unfold _finish. destruct (finish_condition s); [|apply records_step_refl].
  eapply records_step_trans; [|by apply records_step_push].
  by apply (records_step_quiet _ _ []); try done; rewrite ?app_nil_r.
Qed.

Lemma records_step_processBatch c s s' :
  _processBatch c s = Some s' -> records_step s s'.
Proof.
  unfold _processBatch. case_match.
  - destruct (_processor s) as [p|]; [|done]. destruct (next p) as [p' started].
    intros [= <-]. apply (records_step_quiet _ _ []); try by destruct c.
    + destruct c; simpl; by rewrite app_nil_r.
    + unfold children_txs. rewrite tasks_notify_end. simpl.
      rewrite fmap_app, concat_app. simpl. by rewrite !app_nil_r.
  - intros [= <-]. apply (records_step_quiet _ _ []); try by destruct c.
    destruct c; simpl; by rewrite app_nil_r.
Qed.

Lemma records_step_end_loop s s1 fin :
  end_loop s = Some (s1, fin) -> records_step s s1.
Proof.
  unfold end_loop. destruct (_processor s) as [q|]; [|done].
  destruct (isComplete q).
  - intros [= <- <-]. by apply (records_step_quiet _ _ []); try done; rewrite ?app_nil_r.
  - destruct (_processBatch FromEnd s) as [s'|] eqn:Hpb; [|done].
    intros [= <- <-]. by eapply records_step_processBatch.
Qed.

Lemma records_step_retask s s1 i (t t' : @BatchTask Raw Tx Pos) :
  tasks s !! i = Some t ->
  (forall txs, txs ∈ (ftxs <$> children_of t') -> txs ∈ (ftxs <$> children_of t)) ->
  _transactions s1 = _transactions s -> _cancelling s1 = _cancelling s ->
  output s1 = output s -> tasks s1 = <[i:=t']> (tasks s) ->
  records_step s s1.
Proof.
  intros Hi Hsub L C O T. apply (records_step_quiet _ _ []); try done.
  - by rewrite C.
  - by rewrite app_nil_r.
  - intros txs. unfold children_txs at 1. rewrite T.
    intros [H|H]%(children_txs_insert _ _ _ _ _ Hi); [|done].
    eapply children_txs_lookup; eauto.
Qed.

Lemma fresh_aggregated s2 s3 (tx : Tx) before :
  _transactions s3 = _transactions s2 -> tx ∈ _transactions s2 -> open tx = true ->
  (_cancelling s3 = false ->
   Z.of_nat (length (_transactions s2)) ∈ tx_counts before) ->
  aggregated s3 before (aggregate_transactions (position tx) s2).
Proof.
  intros L Hin Ho Hc. exists tx, (_transactions s2). rewrite L. by split_and!.
Qed.

Lemma records_step_processBatch_next i (out : list Tx) s s1 fin :
  (_cancelled s = true -> _cancelling s = true) ->
  _processBatch_next i out s = Some (s1, fin) -> records_step s s1.
Proof.
  intros Hcc. unfold _processBatch_next.
  destruct (tasks s !! i) as [[c started|c r n ch| |]|] eqn:Hi; try done.
  generalize (settle false <$> _processor s). intros proc'.
  assert (forall s', _transactions s' = _transactions s ->
            _cancelling s' = _cancelling s -> output s' = output s ->
            tasks s' = <[i:=Returned]> (tasks s) ->
            records_step s (notify_end c EndAwaitDelay s')) as Hret.
  { intros s' E1 E2 E3 E4. eapply (records_step_retask _ _ i _ Returned Hi).
    - by intros txs [_ [_ []%elem_of_nil]]%list_elem_of_fmap.
    - by destruct c.
    - by destruct c.
    - by destruct c.
    - by rewrite tasks_notify_end. }
  destruct started as [b|]; simpl.
  - destruct (0 <? Z.of_nat (length b)).
    + destruct (0 <? length out)%nat.
      * match goal with |- context [start_finalizers out ?x] =>
          remember x as s2 eqn:Es2 end.
        match type of Es2 with _ = push ?ch ?base =>
          destruct (push_records ch base Hcc)
            as (pn & Opn & Hpn & Hcount & L2 & C2 & T2)
        end.
        rewrite <- Es2 in Opn, L2, C2, T2.
        simpl in Opn, Hpn, Hcount, L2, C2, T2. clear Es2.
        destruct (start_finalizers_batch out s2) as (pp & -> & Hp).
        intros [= <- <-]. simpl.
        assert (Forall (fun m : @Emitted Tx Pos => is_position_event m = false) pn) as Qpn.
        { destruct Hpn as [-> | [-> | ->]]; repeat constructor. }
        assert (forall tx before,
                  tx ∈ out -> open tx = true ->
                  output s ++ pn `prefix_of` before ->
                  forall s3, _transactions s3 = _transactions s2 ->
                             _cancelling s3 = _cancelling s2 ->
                  aggregated s3 before (aggregate_transactions (position tx) s2)) as Hfresh.
        { intros tx before Hin Ho [k ->] s3 Lf Cf. apply fresh_aggregated; try done.
          - rewrite L2. apply elem_of_app. by right.
          - rewrite Cf, C2. intros Hc. rewrite (Hcount Hc), L2.
            rewrite !tx_counts_app. simpl. rewrite !elem_of_app. left. right.
            by left. }
        split_and!.
        -- simpl. rewrite L2. by apply prefix_app_r.
        -- simpl. by rewrite C2.
        -- eexists (pn ++ _). simpl. rewrite Opn, <- app_assoc. split_and!; [done | |].
           ++ intros n1 txs pos n2 (r1 & -> & E)%record_after_quiet; [|done]. right.
              assert (SuperPush (Some (PositionAndTransactions txs pos))
                      ∈ record_of s2 <$>
                          filter (fun tx => open tx = true /\ closes s2 tx = true) out)
                as (tx & Erec & [[Ho _] Hin]%list_elem_of_filter)%list_elem_of_fmap.
              { rewrite E. apply elem_of_app. right. by left. }
              unfold record_of in Erec. injection Erec as -> _.
              apply Hfresh; try done. rewrite app_assoc. by apply prefix_app_r.
           ++ intros txs. unfold children_txs at 1. simpl. rewrite T2.
              intros [H|H]%(children_txs_insert _ _ _ _ _ Hi); [right|by left].
              simpl in H. rewrite <- list_fmap_compose in H.
              apply list_elem_of_fmap in H
                as (tx & -> & [[Ho _] Hin]%list_elem_of_filter).
              apply Hfresh; try done. rewrite app_assoc. by apply prefix_app_r.
      * intros [= <- <-]. by apply Hret.
    + intros [= <- <-]. by apply Hret.
  - intros [= <- <-]. by apply Hret.
Qed.

Lemma records_step_silent s s1 :
  _transactions s1 = _transactions s ->
  (_cancelling s = true -> _cancelling s1 = true) ->
  output s1 = output s -> tasks s1 = tasks s ->
  records_step s s1.
Proof.
  intros L C O T. apply (records_step_quiet _ _ []); try done.
  - by rewrite app_nil_r.
  - unfold children_txs. by rewrite T.
Qed.

Lemma records_step_push_record s txs pos :
  txs ∈ children_txs s ->
  records_step s (push (Some (PositionAndTransactions txs pos)) s).
Proof.
  intros Hin. destruct (push_effect (Some (PositionAndTransactions txs pos)) s)
    as (o & c & E & Ho). rewrite E.
  split_and!; try done. exists o. split_and!; [done | | auto].
  intros n1 txs' pos' n2 En. destruct Ho as [-> | [-> | [-> _]]].
  - by destruct n1.
  - destruct n1 as [|? [|??]]; [|done..]. injection En as <- _. by left.
  - destruct n1 as [|? [|??]]; done.
Qed.

Lemma records_step_with_child i j s k s1 fin :
  with_child i j s k = Some (s1, fin) ->
  (forall c r n ch child sk child' r',
     tasks s !! i = Some (AwaitAll c r n ch) -> ch !! j = Some child ->
     k c r child = Some (sk, child', r') ->
     records_step s sk /\ tasks sk = tasks s /\ ftxs child' = ftxs child) ->
  records_step s s1.
Proof.
  intros (c & r & n & ch & child & sk & child' & r' & Hi & Hj & Hk & -> & ->)%with_child_inv Hyp.
  destruct (Hyp _ _ _ _ _ _ _ _ Hi Hj Hk) as (Hstep & T & F).
  eapply records_step_trans; [exact Hstep|].
  rewrite <- T in Hi.
  eapply (records_step_retask _ _ i _ (AwaitAll c r' n (<[j:=child']> ch)) Hi);
    try done.
  simpl. rewrite list_fmap_insert, F.
  rewrite list_insert_id; [done|]. by rewrite list_lookup_fmap, Hj.
Qed.

Lemma records_step_handle e s s1 fin :
  (_cancelled s = true -> _cancelling s = true) ->
  handle e s = Some (s1, fin) -> records_step s s1.
Proof.
  intros Hcc. destruct e; simpl.
  - destruct (listening s); [done|]. intros [= <- <-]. by apply records_step_silent.
  - destruct (listening s); [|done]. destruct d as [n| |b]; simpl.
    + intros [= <- <-]. eapply records_step_trans; [|by apply records_step_push].
      by apply records_step_silent.
    + intros [= <- <-]. eapply records_step_trans; [|by apply records_step_push].
      by apply records_step_silent.
    + destruct (_processBatch FromData _) as [s'|] eqn:Hpb; [|done].
      intros [= <- <-]. eapply records_step_trans; [|by eapply records_step_processBatch].
      by apply records_step_silent.
  - destruct (listening s); [|done]. destruct (endLoop s); try done.
    unfold on_end. intros Hl.
    eapply records_step_trans; [|by eapply records_step_end_loop].
    by apply records_step_silent.
  - destruct (listening s); [|done]. intros [= <- <-].
    apply (records_step_quiet _ _ [EmitError]); try done. by repeat constructor.
  - unfold cancel. destruct (_transactionStream s); intros [= <- <-].
    + by apply records_step_silent.
    + apply records_step_refl.
  - by apply records_step_processBatch_next.
  - unfold _processBatch_throw.
    destruct (tasks s !! i) as [[c [b|]|c r n ch| |]|] eqn:Hi; try done.
    intros [= <- <-]. eapply (records_step_retask _ _ i _ Threw Hi).
    all: try by destruct c.
    all: try by rewrite tasks_notify_end.
    all: by intros txs [_ [_ []%elem_of_nil]]%list_elem_of_fmap.
  - intros Hw. eapply records_step_with_child; [done|]. simpl.
    intros c r n ch child sk child' r' Hi Hj.
    destruct (fstage child) eqn:Hst; try done. intros [= <- <- <-].
    split_and!; [|apply tasks_push|done].
    apply records_step_push_record. eapply children_txs_lookup; [done|].
    simpl. apply list_elem_of_fmap. exists child. split; [done|].
    by eapply list_elem_of_lookup_2.
  - intros Hw. eapply records_step_with_child; [done|]. simpl.
    intros c r n ch child sk child' r' Hi Hj.
    destruct (fstage child) eqn:Hst; try done. intros [= <- <- <-].
    split_and!; [|by destruct r, c|done].
    apply records_step_silent; by destruct r, c.
  - intros Hw. eapply records_step_with_child; [done|]. simpl.
    intros c r n ch child sk child' r' Hi Hj.
    destruct (fstage child) eqn:Hst; try done. intros [= <- <- <-].
    split_and!; [by apply records_step_silent | done | done].
  - unfold _processBatch_all.
    destruct (tasks s !! i) as [[c started|c [|] n ch| |]|] eqn:Hi; try done.
    destruct (all_settled ch); [|done]. intros [= <- <-].
    eapply (records_step_retask _ _ i _ Returned Hi).
    all: try by destruct c.
    all: try by rewrite tasks_notify_end.
    all: by intros txs [_ [_ []%elem_of_nil]]%list_elem_of_fmap.
  - destruct (endLoop s); try done. apply records_step_end_loop.
Qed.

Lemma records_step_fire e s s' :
  (_cancelled s = true -> _cancelling s = true) ->
  fire e s = Some s' -> records_step s s'.
Proof.
  intros Hcc. unfold fire. destruct (handle e s) as [[s1 [|]]|] eqn:Hh; [| |done].
  - intros [= <-]. eapply records_step_trans; [by eapply records_step_handle|].
    apply records_step_finish.
  - intros [= <-]. by eapply records_step_handle.
Qed.

Lemma records_aggregated_step s s' :
  records_aggregated s -> records_step s s' ->
  (_cancelled s' = true -> _cancelling s' = true) ->
  records_aggregated s'.
Proof.
  intros (_ & HO & HK) (L & C & new & O & R & K) Hcc.
  assert (forall b txs, output s `prefix_of` b ->
            txs ∈ children_txs s -> aggregated s' b txs) as Hold.
  { intros b txs Hb Hin. apply (aggregated_mono s s' (output s) b); try done.
    by apply (Forall_forall (aggregated s (output s)) (children_txs s)). }
  split_and!; [done | |].
  - intros o1 txs pos o2. rewrite O.
    intros [(k & E1 & E2)|(k & E1 & E2)]%app_eq_inv.
    + destruct k as [|m k].
      * simpl in E2. rewrite app_nil_r in E1. subst o1.
        destruct (R [] txs pos o2) as [Hin|Ha]; [done| |by rewrite app_nil_r in Ha].
        by apply Hold.
      * injection E2 as <- E2. apply (aggregated_mono s s' o1 o1); try done.
        by apply (HO o1 txs pos k).
    + subst o1. destruct (R k txs pos o2 E2) as [Hin|Ha]; [|done].
      apply Hold; [|done]. by apply prefix_app_r.
  - apply Forall_forall. intros txs [Hin|Ha]%K; [|done].
    apply Hold; [|done]. rewrite O. by apply prefix_app_r.
Qed.

Lemma records_aggregated_run es s s' :
  records_aggregated s -> run es s = Some s' -> records_aggregated s'.
Proof.
  revert s. induction es as [|e es IH]; intros s HA; simpl; [by intros [= <-]|].
  destruct (fire e s) as [s1|] eqn:Hf; [|done]. apply IH.
  eapply records_aggregated_step; [done | |].
  - eapply records_step_fire; [|done]. by destruct HA.
  - destruct HA as [Hcc _].
    apply evolves_fire in Hf as [_ _ _ H4 _ H6 _ _ _ _ _ _ _ _ _].
    intros [?|?]%H6; auto.
Qed.

(** X12.  Every position record pushed carries the transactions that
    [_createPosition] aggregated for an open-flagged transaction from an
    earlier state of the log: all the transactions logged up to then that
    share its position key, passed through [invertAndFillMissingFees].
    Unless a cancellation was requested, the [transactionCount] chunk for
    that state of the log was pushed before the record. *)
Theorem records_aggregate_the_log es s o1 txs pos o2 :
  run es constructor = Some s ->
  output s = o1 ++ SuperPush (Some (PositionAndTransactions txs pos)) :: o2 ->
  exists tx log',
    log' `prefix_of` _transactions s
    /\ tx ∈ log' /\ open tx = true
    /\ txs = invertAndFillMissingFees (filter (fun t => position t = position tx) log')
    /\ (_cancelling s = false -> Z.of_nat (length log') ∈ tx_counts o1).
Proof.
  intros Hrun Ho.
  assert (records_aggregated (@constructor Raw Tx Pos)) as H0.
  { split_and!; [done | by intros [|??] ??? | by constructor]. }
  destruct (records_aggregated_run _ _ _ H0 Hrun) as (_ & HO & _).
  exact (HO _ _ _ _ Ho).
Qed.

(** *** The completion check *)

Lemma finish_marks s :
  _done (_finish s) = _done s || finish_condition s
  /\ finish_condition (_finish s) = false.
Proof.
  unfold _finish. destruct (finish_condition s) eqn:Hfin.
  - destruct (push_effect None (set_done true s)) as (o & c & -> & _).
    unfold finish_condition. simpl. split; [by rewrite orb_true_r|].
    by rewrite andb_false_r.
  - by rewrite orb_false_r.
Qed.

(** C3.  With no cancellation requested, a segment of the orchestrator
    emits no terminal signal of its own; the completion check runs exactly
    after a forwarded progress signal and at the end of a batch drain; the
    check emits the terminal signal if and only if the all-signatures-found
    flag is set, the received and processed counts are equal and the stream
    is not already done.  A check that emits marks the stream done, so that
    the next check emits nothing: along any execution without cancellation
    the terminal signal has been emitted once if the stream is done and not
    at all otherwise. *)
Theorem completion_check :
  (forall e s s1 fin,
     handle e s = Some (s1, fin) ->
     _cancelling s1 = false -> _cancelled s1 = false ->
     fin = checks_completion e s1
     /\ ends s1 = ends s
     /\ fire e s = Some (if fin then _finish s1 else s1)
     /\ output (_finish s1)
        = output s1 ++ (if finish_condition s1 then [SuperPush None] else [])
     /\ (finish_condition s1 = true <->
         _receivedAllTransactions s1 = true
         /\ _transactionsReceivedCount s1 = _transactionsProcessedCount s1
         /\ _done s1 = false)
     /\ _done (_finish s1) = _done s1 || finish_condition s1
     /\ finish_condition (_finish s1) = false)
  /\ (forall es s,
        run es constructor = Some s -> _cancelling s = false ->
        ends s = ind (_done s)).
Proof.
  split.
  - intros e s s1 fin Hh Hc1 Hc2. split_and!.
    + exact (handle_check _ _ _ _ Hh).
    + apply handle_quiet in Hh as (_ & _ & Q3 & _ & Q5 & Q6).
      assert (_cancelling s = false /\ _cancelling (noted e s) = false
              /\ _cancelled (noted e s) = _cancelled s /\ ends (noted e s) = ends s)
        as (N1 & N2 & N3 & N4).
      { rewrite Q3 in Hc1. revert Hc1.
        destruct e as [|[| |]| | | | | | | | | |]; simpl; try done.
        destruct (listening s); simpl; done. }
      destruct (_cancelled (noted e s)) eqn:Hcd.
      * specialize (Q5 eq_refl). congruence.
      * destruct (Q6 N2 eq_refl). congruence.
    + unfold fire. rewrite Hh. by destruct fin.
    + exact (finish_emits s1 Hc1 Hc2).
    + unfold finish_condition. rewrite !andb_true_iff, negb_true_iff, Z.eqb_eq. tauto.
    + apply finish_marks.
    + apply finish_marks.
  - intros es s [_ _ _ _ _ _ _ _ _ H10 _ _ _ _ _]%evolves_run Hc.
    destruct (H10 Hc eq_refl) as [_ H].
    change (ends (@constructor Raw Tx Pos)) with 0 in H. simpl in H. lia.
Qed.

(** *** The pending list at the normal end *)

(** C8, as the code has it, for the normal end.  When the completion check
    emits the terminal signal the pending list is empty, and it is still
    empty when that segment ends, provided the source never delivers more
    raw transactions than the signature count it last reported.  Several
    keys can be pending together: two open positions of one batch are both
    in the list. *)
Theorem pending_empty_at_normal_end :
  (forall es e s s1,
     run es constructor = Some s -> counts_cover (es ++ [e]) = true ->
     handle e s = Some (s1, true) -> finish_condition s1 = true ->
     fire e s = Some (_finish s1)
     /\ _pendingPositions s1 = []
     /\ _pendingPositions (_finish s1) = []
     /\ (_cancelling s1 = false ->
         output (_finish s1) = output s1 ++ [SuperPush None]))
  /\ (forall (tx1 tx2 : Tx) s,
       open tx1 = true -> open tx2 = true ->
       isClosed (newMeteoraPosition (aggregate_transactions (position tx1) s)) = false ->
       isClosed (newMeteoraPosition (aggregate_transactions (position tx2) s)) = false ->
       _pendingPositions (start_finalizers [tx1; tx2] s).1
       = _pendingPositions s ++ [position tx1; position tx2]).
Proof.
  split.
  - intros es e s s1 Hrun Hcover Hh Hfin.
    assert (_pendingPositions s1 = []) as Hp.
    { destruct (run_counts _ _ _ _ Inv_constructor Hrun) as [HI Hr].
      pose proof (Inv_handle _ _ _ _ _ HI Hh) as HI1.
      apply counts_cover_last in Hcover; [|by destruct es].
      assert (delivered_total (es ++ [e]) = delivered_total es + delivered_by e) as Hd.
      { clear. induction es as [|e' es IH]; simpl; lia. }
      assert (reported_total 0 (es ++ [e]) = reported_by e (reported_total 0 es)) as Hrep.
      { clear. generalize 0. induction es as [|e' es IH]; intros r; simpl; [done|apply IH]. }
      pose proof Hh as (H1 & _)%handle_quiet.
      assert (_transactionsReceivedCount s1 = reported_by e (_transactionsReceivedCount s))
        as Hrec.
      { rewrite H1. destruct e as [|[| |]| | | | | | | | | |]; simpl; try done.
        destruct (listening s); done. }
      apply (drained_no_pending _ _ HI1).
      destruct HI1 as [_ _ Hle _ _].
      unfold finish_condition in Hfin.
      apply andb_prop in Hfin as [[_ Heq%Z.eqb_eq]%andb_prop _].
      rewrite Hr in Hrec.
      change (_transactionsReceivedCount (@constructor Raw Tx Pos)) with 0 in Hrec. lia. }
    split_and!.
    + unfold fire. by rewrite Hh.
    + exact Hp.
    + destruct (finish_fields s1) as (_ & _ & -> & _). exact Hp.
    + intros Hc. rewrite finish_emits, Hfin; [done | done |].
      apply evolves_run in Hrun as [_ _ _ _ _ R6 _ _ _ _ _ _ _ _ _].
      apply evolves_handle in Hh as [_ _ _ H4 _ H6 _ _ _ _ _ _ _ _ _].
      destruct (_cancelled s1) eqn:Hcd; [|done].
      destruct (H6 eq_refl) as [Hs|Hs]; [|congruence].
      destruct (R6 Hs) as [?|Hs']; [done|]. apply H4 in Hs'. congruence.
  - intros tx1 tx2 s Ho1 Ho2 Hc1 Hc2. unfold start_finalizers, _createPosition.
    rewrite Ho1, Ho2. unfold aggregate_transactions in *. simpl.
    rewrite Hc1. simpl. rewrite Hc2. simpl. by rewrite <- app_assoc.
Qed.

(** *** Calls of [emit] *)

(** X5.  The code of the class calls [emit("error", _)] exactly once per
    error of the source, whatever the state of the gate, and nowhere else:
    no rejection of the classifier or of the augmenter leads to such a
    call.  This counts the calls the class makes; an error that the
    inherited [push] raises by itself, for a chunk handed over after
    [null], is none of them. *)
Theorem emit_error_called_for_source_errors_only es s :
  run es constructor = Some s -> errors s = source_errors es.
Proof.
  intros [_ _ _ _ _ _ _ _ _ _ H _ _ _ _]%evolves_run.
  change (errors (@constructor Raw Tx Pos)) with 0 in H. lia.
Qed.

(** *** The loop of the end listener *)












End StreamFacts.

(** ** The loading summary *)

Section DisplayFacts.
Context {Profit Error : Type} (errors : Profit -> list Error).

Lemma length_filter_all {A : Type} (P : A -> Prop) `{!forall x, Decision (P x)} (l : list A) :
  length (filter P l) = length l <-> Forall P l.
Proof.
  induction l as [|x l IH]; [done|]. rewrite filter_cons, Forall_cons.
  pose proof (length_filter P l) as Hle. destruct (decide (P x)); simpl.
  - rewrite <- IH. split; [intros [= ?]; by split | intros [_ ->]; done].
  - split; [lia | tauto].
Qed.

(** X13.  The summary shows at most as many positions with errors as
    positions analyzed, the two numbers being equal exactly when every
    analyzed position has an error; both items carry the [loading] flag of
    the props. *)
Theorem errors_shown_within_analyzed loading (st : Display.PositionLoadingState) l1 l2 e a :
  Display.LoadingItem l1 "# of Positions w/ Errors" (Display.Num e)
    ∈ Display.card_items (Display.LoadingSummary errors loading st) ->
  Display.LoadingItem l2 "# of Positions Analyzed" (Display.Num a)
    ∈ Display.card_items (Display.LoadingSummary errors loading st) ->
  0 <= e <= a
  /\ (e = a <-> Forall (fun profit => errors profit <> []) (Display.profits st))
  /\ l1 = Some loading /\ l2 = Some loading.
Proof.
  simpl. intros He Ha.
  rewrite !elem_of_cons, elem_of_nil in He. rewrite !elem_of_cons, elem_of_nil in Ha.
  destruct He as [He|[He|[He|[He|[He|[He|[He|[]]]]]]]]; try discriminate He;
    try (by repeat case_match).
  destruct Ha as [Ha|[Ha|[Ha|[Ha|[Ha|[Ha|[Ha|[]]]]]]]]; try discriminate Ha;
    try (by repeat case_match).
  injection He as -> ->. injection Ha as -> ->.
  pose proof (length_filter (fun profit => (0 < length (errors profit))%nat)
                (Display.profits st)) as Hle.
  split_and!; try done; try lia.
  rewrite Nat2Z.inj_iff, length_filter_all. apply Forall_proper; [|done].
  intros p. destruct (errors p); simpl; split; (done || lia).
Qed.

(** X14.  The item with the estimated time is part of the summary only
    while loading, and only with a non-empty estimate as its value: a
    missing or empty [eta] gives no item.  The comparison with the empty
    string that the condition ends with never decides: the condition has
    the value of its first two tests. *)
Theorem eta_shown_only_while_loading loading (st : Display.PositionLoadingState) l v :
  (Display.LoadingItem l "Estimated time to complete" v
    ∈ Display.card_items (Display.LoadingSummary errors loading st)
  <-> l = None /\ loading = true
      /\ exists estimate, Display.eta st = Some estimate /\ estimate <> ""
                          /\ v = Display.Str estimate)
  /\ loading && Display.truthy (Display.eta st)
       && Display.differs_from_empty (Display.eta st)
     = loading && Display.truthy (Display.eta st).
Proof.
  split; [|destruct loading, (Display.eta st) as [estimate|]; simpl; try done;
           by destruct (String.eqb estimate "")].
  simpl. rewrite !elem_of_cons, elem_of_nil. split.
  - intros H. destruct H as [H|[H|[H|[H|[H|[H|[H|[]]]]]]]]; try discriminate H;
      try (by repeat case_match).
    destruct loading; [|done]. destruct (Display.eta st) as [estimate|]; [|done].
    simpl in H. destruct (String.eqb_spec estimate ""); [done|].
    injection H as -> ->. split_and!; try done. by exists estimate.
  - intros (-> & -> & estimate & -> & Hne & ->). right. left. simpl.
    by destruct (String.eqb_spec estimate "").
Qed.

End DisplayFacts.

(** ** The properties on concrete executions *)

Import Demo.

Lemma push_applies_gate_witness :
  _pendingPositions cancelling_state = [] /\ _cancelling cancelling_state = true
  /\ _cancelled cancelling_state = false
  /\ output (push (Some (TransactionCount 1)) cancelling_state) = [SuperPush None]
  /\ _cancelled (push (Some (TransactionCount 1)) cancelling_state) = true.
Proof.
  split; [reflexivity|]. split; [reflexivity|]. split; [reflexivity|].
  apply (proj1 (proj2 (push_applies_gate (Some (TransactionCount 1)) cancelling_state)));
    reflexivity.
Defined.

Lemma cancel_before_init_throws_witness :
  run early_cancels constructor = Some constructor /\ (InitResolved ∉ early_cancels)
  /\ cancel (@constructor nat tx pos) = inl TypeError.
Proof.
  assert (InitResolved ∉ early_cancels) as Hno.
  { intros H. repeat (apply elem_of_cons in H as [H|H]; [discriminate H|]).
    by apply elem_of_nil in H. }
  split; [reflexivity|]. split; [exact Hno|].
  apply (cancel_before_init_throws early_cancels constructor); [reflexivity | exact Hno].
Defined.

Lemma completion_check_witness :
  handle (AllResolved 0) closed_position_draining = Some (closed_position_checked, true)
  /\ _cancelling closed_position_checked = false
  /\ _cancelled closed_position_checked = false
  /\ fire (AllResolved 0) closed_position_draining = Some (_finish closed_position_checked)
  /\ output (_finish closed_position_checked)
     = output closed_position_checked ++ [SuperPush None]
  /\ _done (_finish closed_position_checked) = true
  /\ finish_condition (_finish closed_position_checked) = false
  /\ handle (SrcData AllSignaturesFound) nothing_to_fetch_end
     = Some (nothing_to_fetch_checked, true)
  /\ fire (SrcData AllSignaturesFound) nothing_to_fetch_end
     = Some (_finish nothing_to_fetch_checked)
  /\ output (_finish nothing_to_fetch_checked)
     = output nothing_to_fetch_checked ++ [SuperPush None]
  /\ run closed_position_run constructor = Some closed_position_end
  /\ _cancelling closed_position_end = false
  /\ ends closed_position_end = 1.
Proof.
  assert (handle (AllResolved 0) closed_position_draining
          = Some (closed_position_checked, true)) as Hh by (vm_compute; reflexivity).
  assert (handle (SrcData AllSignaturesFound) nothing_to_fetch_end
          = Some (nothing_to_fetch_checked, true)) as Hh' by (vm_compute; reflexivity).
  assert (run closed_position_run constructor = Some closed_position_end) as Hrun
    by (vm_compute; reflexivity).
  destruct (proj1 completion_check (AllResolved 0) closed_position_draining
              closed_position_checked true Hh eq_refl eq_refl)
    as (_ & _ & Hf & Ho & _ & Hd & Hn).
  destruct (proj1 completion_check (SrcData AllSignaturesFound) nothing_to_fetch_end
              nothing_to_fetch_checked true Hh' eq_refl eq_refl)
    as (_ & _ & Hf' & Ho' & _).
  split; [exact Hh|]. split; [reflexivity|]. split; [reflexivity|].
  split; [exact Hf|]. split; [exact Ho|]. split; [exact Hd|]. split; [exact Hn|].
  split; [exact Hh'|]. split; [exact Hf'|]. split; [exact Ho'|].
  split; [exact Hrun|]. split; [reflexivity|].
  exact (proj2 completion_check closed_position_run closed_position_end Hrun eq_refl).
Defined.

Lemma counters_ordered_witness :
  run closed_position_run constructor = Some closed_position_end
  /\ counts_cover closed_position_run = true
  /\ _transactionsProcessedCount closed_position_end
     <= _transactionsReceivedCount closed_position_end.
Proof.
  assert (run closed_position_run constructor = Some closed_position_end) as Hrun
    by (vm_compute; reflexivity).
  assert (counts_cover closed_position_run = true) as Hcover
    by (vm_compute; reflexivity).
  split; [exact Hrun|]. split; [exact Hcover|].
  exact (proj1 counters_ordered_under_covering_source closed_position_run
           closed_position_end Hrun Hcover).
Defined.

(** The claim of C9 fails for a source that delivers a transaction before
    it has counted its signature: one transaction processed, none received. *)
Lemma uncounted_batch_overtakes_received :
  run uncounted_batch constructor = Some uncounted_batch_end
  /\ _transactionsProcessedCount uncounted_batch_end = 1
  /\ _transactionsReceivedCount uncounted_batch_end = 0
  /\ ~ (_transactionsProcessedCount uncounted_batch_end
        <= _transactionsReceivedCount uncounted_batch_end).
Proof.
  split; [vm_compute; reflexivity|]. split; [reflexivity|]. split; [reflexivity|].
  simpl. lia.
Qed.

Lemma pending_empty_at_normal_end_witness :
  _pendingPositions open_position_augmenting = ["P1"]
  /\ run open_position_settled_run constructor = Some open_position_settled
  /\ counts_cover (open_position_settled_run ++ [AllResolved 0]) = true
  /\ handle (AllResolved 0) open_position_settled = Some (open_position_checked, true)
  /\ finish_condition open_position_checked = true
  /\ fire (AllResolved 0) open_position_settled = Some (_finish open_position_checked)
  /\ _pendingPositions open_position_checked = []
  /\ _pendingPositions (_finish open_position_checked) = []
  /\ output (_finish open_position_checked)
     = output open_position_checked ++ [SuperPush None].
Proof.
  assert (run open_position_settled_run constructor = Some open_position_settled) as Hrun
    by (vm_compute; reflexivity).
  assert (counts_cover (open_position_settled_run ++ [AllResolved 0]) = true) as Hcover
    by (vm_compute; reflexivity).
  assert (handle (AllResolved 0) open_position_settled
          = Some (open_position_checked, true)) as Hh by (vm_compute; reflexivity).
  assert (finish_condition open_position_checked = true) as Hfin
    by (vm_compute; reflexivity).
  destruct (proj1 pending_empty_at_normal_end open_position_settled_run (AllResolved 0)
              open_position_settled open_position_checked Hrun Hcover Hh Hfin)
    as (Hf & Hp & Hp' & Ho).
  split; [reflexivity|]. split; [exact Hrun|]. split; [exact Hcover|].
  split; [exact Hh|]. split; [exact Hfin|]. split; [exact Hf|]. split; [exact Hp|].
  split; [exact Hp'|]. exact (Ho eq_refl).
Defined.

(** The claim of C8 fails at the normal end: with P1 still being augmented
    the completion check succeeds (nothing was counted as received), the
    terminal signal passes the gate by rule 1 while P1 is pending, and P1
    is still pending when the segment ends. *)
Lemma end_pushed_while_position_pending :
  run uncounted_open_position constructor = Some uncounted_open_position_end
  /\ handle (SrcData AllSignaturesFound) uncounted_open_position_end
     = Some (uncounted_open_position_checked, true)
  /\ finish_condition uncounted_open_position_checked = true
  /\ _pendingPositions uncounted_open_position_checked = ["P1"]
  /\ fire (SrcData AllSignaturesFound) uncounted_open_position_end
     = Some (_finish uncounted_open_position_checked)
  /\ output (_finish uncounted_open_position_checked)
     = output uncounted_open_position_checked ++ [SuperPush None]
  /\ _pendingPositions (_finish uncounted_open_position_checked) = ["P1"].
Proof. split_and!; vm_compute; reflexivity. Qed.

Lemma one_position_event_witness :
  run closed_position_run constructor = Some closed_position_end
  /\ not_emitted closed_position_end = 0
  /\ (forall k, k ∈ position_keys (_transactions closed_position_end) ->
                opens_of k (_transactions closed_position_end) = 1)
  /\ position_events closed_position_end
     = Z.of_nat (length (position_keys (_transactions closed_position_end))).
Proof.
  assert (run closed_position_run constructor = Some closed_position_end) as Hrun
    by (vm_compute; reflexivity).
  assert (forall k, k ∈ position_keys (_transactions closed_position_end) ->
                    opens_of k (_transactions closed_position_end) = 1) as Hone.
  { intros k Hk. change (k ∈ ["P1"]) in Hk.
    apply elem_of_cons in Hk as [->|Hk]; [vm_compute; reflexivity|].
    by apply elem_of_nil in Hk. }
  split; [exact Hrun|]. split; [vm_compute; reflexivity|]. split; [exact Hone|].
  exact (proj2 (one_position_event_per_open_transaction closed_position_run
                  closed_position_end Hrun) eq_refl Hone).
Defined.

(** The claim of C5 fails when a position key has no open transaction in
    the log: the execution completes with one distinct key and no
    [positionAndTransactions] record. *)
Lemma key_without_open_is_never_emitted :
  run deposit_only_run constructor = Some deposit_only_end
  /\ output deposit_only_end
     = [SuperPush (Some (DSignatureCount 1));
        SuperPush (Some DAllSignaturesFound);
        SuperPush (Some (TransactionCount 1));
        SuperPush None]
  /\ position_keys (_transactions deposit_only_end) = ["P3"]
  /\ position_events deposit_only_end = 0
  /\ position_events deposit_only_end
     <> Z.of_nat (length (position_keys (_transactions deposit_only_end))).
Proof. split_and!; try (vm_compute; reflexivity). vm_compute. discriminate. Qed.

Lemma open_position_witness :
  run open_position_classified constructor = Some open_position_augmenting
  /\ fire (AugmentResolved 0 0 (live (mkPos [openP1] 0))) open_position_augmenting
     = Some open_position_augmented
  /\ output open_position_augmented
     = output open_position_augmenting
       ++ [SuperPush (Some (PositionAndTransactions [openP1]
                              (live (mkPos [openP1] 0))))].
Proof.
  assert (run open_position_classified constructor = Some open_position_augmenting) as Hrun
    by (vm_compute; reflexivity).
  assert (fire (AugmentResolved 0 0 (live (mkPos [openP1] 0))) open_position_augmenting
          = Some open_position_augmented) as Hf by (vm_compute; reflexivity).
  split; [exact Hrun|]. split; [exact Hf|].
  destruct (proj1 (proj2 open_position_augmented_then_emitted)
              open_position_classified open_position_augmenting 0%nat 0%nat
              (live (mkPos [openP1] 0)) open_position_augmented Hrun Hf)
    as (c & r & n & ch & child & Hi & Hj & _ & Ho).
  injection Hi as <- <- <- <-. injection Hj as <-. exact Ho.
Defined.

(** The claim of C6 fails on the open position P1: its augmented record is
    pushed, and no [updatingOpenPositions] chunk precedes it. *)
Lemma open_position_without_updating_event :
  run open_position_run constructor = Some open_position_end
  /\ output open_position_end
     = [SuperPush (Some (DSignatureCount 10));
        SuperPush (Some DAllSignaturesFound);
        SuperPush (Some (TransactionCount 1));
        SuperPush (Some (PositionAndTransactions [openP1]
                           (live (mkPos [openP1] 0))));
        SuperPush None]
  /\ isClosed (live (mkPos [openP1] 0)) = false
  /\ (forall n, SuperPush (Some (UpdatingOpenPositions n)) ∉ output open_position_end).
Proof.
  split_and!; try (vm_compute; reflexivity).
  intros n H. repeat (apply elem_of_cons in H as [H|H]; [discriminate H|]).
  by apply elem_of_nil in H.
Qed.

(** C4 on the code: after [cancel] the batch already handed to the
    classifier still starts the finalize step of P1 when it resolves, and
    the record of that step is pushed after the terminal signal. *)
Lemma finalize_step_started_after_cancel :
  run cancel_while_classifying constructor = Some cancelled_classifying
  /\ _cancelling cancelled_classifying = true
  /\ _pendingPositions cancelled_classifying = []
  /\ tasks cancelled_classifying = [AwaitNext FromData (Some [1%nat])]
  /\ fire (NextResolved 0 [openP1]) cancelled_classifying = Some cancelled_finalizing
  /\ _pendingPositions cancelled_finalizing = ["P1"]
  /\ tasks cancelled_finalizing
     = [AwaitAll FromData false 1
          [mkFinalize "P1" [openP1] (mkPos [openP1] 0) AwaitAugment]]
  /\ output cancelled_finalizing = [SuperPush (Some (DSignatureCount 1)); SuperPush None]
  /\ fire (AugmentResolved 0 0 (live (mkPos [openP1] 0))) cancelled_finalizing
     = Some cancelled_finalized
  /\ output cancelled_finalized
     = [SuperPush (Some (DSignatureCount 1)); SuperPush None;
        SuperPush (Some (PositionAndTransactions [openP1] (live (mkPos [openP1] 0))))].
Proof. split_and!; vm_compute; reflexivity. Qed.

(** C7 on the code: the classifier rejects the second batch.  The rejected
    [_processBatch] is dropped: nothing is emitted, neither then nor when
    the source afterwards reports all signatures found and ends. *)
Lemma classifier_rejection_not_reported :
  run first_batch_classified constructor = Some second_batch_classifying
  /\ tasks second_batch_classifying !! 1%nat = Some (AwaitNext FromData (Some [2%nat]))
  /\ fire (NextRejected 1 false) second_batch_classifying = Some second_batch_rejected
  /\ output second_batch_rejected = output second_batch_classifying
  /\ errors second_batch_rejected = 0
  /\ run after_rejection second_batch_rejected = Some source_ended_after_rejection
  /\ output source_ended_after_rejection
     = output second_batch_classifying ++ [SuperPush (Some DAllSignaturesFound)]
  /\ errors source_ended_after_rejection = 0
  /\ ends source_ended_after_rejection = 0.
Proof. split_and!; vm_compute; reflexivity. Qed.

(** *** The further properties on the executions above *)

Lemma state_only_grows_witness :
  run [AugmentResolved 0 0 (live (mkPos [openP1] 0))] open_position_augmenting
  = Some open_position_augmented
  /\ _transactions open_position_augmenting `prefix_of` _transactions open_position_augmented
  /\ output open_position_augmenting `prefix_of` output open_position_augmented.
Proof.
  assert (run [AugmentResolved 0 0 (live (mkPos [openP1] 0))] open_position_augmenting
          = Some open_position_augmented) as Hrun by (vm_compute; reflexivity).
  destruct (state_only_grows [AugmentResolved 0 0 (live (mkPos [openP1] 0))]
              open_position_augmenting open_position_augmented Hrun) as (Hl & Ho & _).
  split; [exact Hrun|]. split; [exact Hl | exact Ho].
Defined.

Lemma terminal_signal_accounting_witness :
  run closed_position_run constructor = Some closed_position_end
  /\ _cancelling closed_position_end = false
  /\ ends closed_position_end = ind (_done closed_position_end).
Proof.
  assert (run closed_position_run constructor = Some closed_position_end) as Hrun
    by (vm_compute; reflexivity).
  split; [exact Hrun|]. split; [reflexivity|].
  exact (proj2 (proj2 (terminal_signal_accounting closed_position_run
                         closed_position_end Hrun)) eq_refl).
Defined.

Lemma transaction_counts_increase_witness :
  run closed_position_run constructor = Some closed_position_end
  /\ StronglySorted Z.lt (tx_counts (output closed_position_end))
  /\ Forall (fun n => 0 < n <= log_length closed_position_end)
       (tx_counts (output closed_position_end)).
Proof.
  assert (run closed_position_run constructor = Some closed_position_end) as Hrun
    by (vm_compute; reflexivity).
  destruct (transaction_counts_increase closed_position_run closed_position_end Hrun)
    as (Hs & Hf & _).
  split; [exact Hrun|]. split; [exact Hs | exact Hf].
Defined.

Lemma progress_signals_forwarded_witness :
  run closed_position_run constructor = Some closed_position_end
  /\ _cancelling closed_position_end = false
  /\ signals (output closed_position_end) = reported_signals closed_position_run.
Proof.
  assert (run closed_position_run constructor = Some closed_position_end) as Hrun
    by (vm_compute; reflexivity).
  split; [exact Hrun|]. split; [reflexivity|].
  exact (proj2 (progress_signals_forwarded closed_position_run closed_position_end Hrun)
           eq_refl).
Defined.

Lemma emit_error_called_witness :
  run failing_run constructor = Some failing_end
  /\ source_errors failing_run = 1
  /\ errors failing_end = source_errors failing_run.
Proof.
  assert (run failing_run constructor = Some failing_end) as Hrun
    by (vm_compute; reflexivity).
  split; [exact Hrun|]. split; [reflexivity|].
  exact (emit_error_called_for_source_errors_only failing_run failing_end Hrun).
Defined.



Lemma pending_positions_flush_witness :
  _pendingPositions augmenting_cancelled <> []
  /\ _cancelling augmenting_cancelled = true
  /\ fire (AugmentResolved 0 0 (live (mkPos [openP1] 0))) augmenting_cancelled
     = Some augmenting_cancelled_augmented
  /\ _cancelled augmenting_cancelled_augmented = _cancelled augmenting_cancelled.
Proof.
  assert (_pendingPositions augmenting_cancelled <> []) as Hp
    by (vm_compute; discriminate).
  assert (fire (AugmentResolved 0 0 (live (mkPos [openP1] 0))) augmenting_cancelled
          = Some augmenting_cancelled_augmented) as Hf by (vm_compute; reflexivity).
  split; [exact Hp|]. split; [reflexivity|]. split; [exact Hf|].
  exact (pending_positions_flush (AugmentResolved 0 0 (live (mkPos [openP1] 0)))
           augmenting_cancelled augmenting_cancelled_augmented Hp Hf).
Defined.

Lemma rejected_augmentation_witness :
  run augmentation_rejects constructor = Some augmentation_rejected
  /\ rejected_at 0 0 augmentation_rejected
  /\ run after_augmentation_rejected augmentation_rejected = Some rejected_then_cancelled
  /\ rejected_at 0 0 rejected_then_cancelled
  /\ _pendingPositions rejected_then_cancelled <> []
  /\ _cancelled rejected_then_cancelled = _cancelled augmentation_rejected
  /\ (forall chunk, push chunk rejected_then_cancelled
                    = super_push chunk rejected_then_cancelled).
Proof.
  assert (run augmentation_rejects constructor = Some augmentation_rejected) as Hrun
    by (vm_compute; reflexivity).
  assert (rejected_at 0 0 augmentation_rejected) as Hrej.
  { exists FromData, true, 10,
      [mkFinalize "P1" [openP1] (mkPos [openP1] 0) Rejected],
      (mkFinalize "P1" [openP1] (mkPos [openP1] 0) Rejected).
    split; [reflexivity|]. split; reflexivity. }
  assert (run after_augmentation_rejected augmentation_rejected
          = Some rejected_then_cancelled) as Hrun' by (vm_compute; reflexivity).
  split; [exact Hrun|]. split; [exact Hrej|]. split; [exact Hrun'|].
  exact (rejected_augmentation_blocks_the_gate augmentation_rejects
           after_augmentation_rejected augmentation_rejected rejected_then_cancelled
           0%nat 0%nat Hrun Hrej Hrun').
Defined.

Lemma pending_list_witness :
  run open_position_classified constructor = Some open_position_augmenting
  /\ _pendingPositions open_position_augmenting ≡ₚ pending_keys open_position_augmenting.
Proof.
  assert (run open_position_classified constructor = Some open_position_augmenting) as Hrun
    by (vm_compute; reflexivity).
  split; [exact Hrun|].
  exact (proj1 (pending_list_holds_keys_in_flight open_position_classified
                  open_position_augmenting Hrun)).
Defined.

Lemma records_aggregate_witness :
  run closed_position_run constructor = Some closed_position_end
  /\ output closed_position_end
     = [SuperPush (Some (DSignatureCount 10)); SuperPush (Some DAllSignaturesFound);
        SuperPush (Some (TransactionCount 2))]
       ++ SuperPush (Some (PositionAndTransactions [openP1; closeP1]
                             (mkPos [openP1; closeP1] 0)))
          :: [SuperPush None]
  /\ exists t log',
       log' `prefix_of` _transactions closed_position_end
       /\ t ∈ log' /\ open t = true
       /\ [openP1; closeP1]
          = invertAndFillMissingFees (filter (fun u => position u = position t) log')
       /\ (_cancelling closed_position_end = false ->
           Z.of_nat (length log')
           ∈ @tx_counts tx pos [SuperPush (Some (DSignatureCount 10));
                                SuperPush (Some DAllSignaturesFound);
                                SuperPush (Some (TransactionCount 2))]).
Proof.
  assert (run closed_position_run constructor = Some closed_position_end) as Hrun
    by (vm_compute; reflexivity).
  split; [exact Hrun|]. split; [reflexivity|].
  exact (records_aggregate_the_log closed_position_run closed_position_end
           [SuperPush (Some (DSignatureCount 10)); SuperPush (Some DAllSignaturesFound);
            SuperPush (Some (TransactionCount 2))]
           [openP1; closeP1] (mkPos [openP1; closeP1] 0) [SuperPush None]
           Hrun eq_refl).
Defined.

Lemma errors_shown_witness :
  Display.LoadingItem (Some true) "# of Positions w/ Errors" (Display.Num 1)
    ∈ Display.card_items (Display.LoadingSummary (fun p : list string => p) true summary_state)
  /\ Display.LoadingItem (Some true) "# of Positions Analyzed" (Display.Num 2)
       ∈ Display.card_items
           (Display.LoadingSummary (fun p : list string => p) true summary_state)
  /\ 0 <= 1 <= 2.
Proof.
  assert (Display.LoadingItem (Some true) "# of Positions w/ Errors" (Display.Num 1)
            ∈ Display.card_items
                (Display.LoadingSummary (fun p : list string => p) true summary_state))
    as He.
  { do 4 apply list_elem_of_further. apply list_elem_of_here. }
  assert (Display.LoadingItem (Some true) "# of Positions Analyzed" (Display.Num 2)
            ∈ Display.card_items
                (Display.LoadingSummary (fun p : list string => p) true summary_state))
    as Ha.
  { do 5 apply list_elem_of_further. apply list_elem_of_here. }
  split; [exact He|]. split; [exact Ha|].
  exact (proj1 (errors_shown_within_analyzed (fun p : list string => p) true
                  summary_state (Some true) (Some true) 1 2 He Ha)).
Defined.
